(** * Triff: an in-memory key-value store with TTLs

    A shallow embedding of the storage core of [nitrix4ly/triff]
    ([core/database.go], [core/types.go], the [StringCommands] of package
    [commands], [storage/memory_engine.go], [storage/disk_engine.go])
    together with the properties its specification states about it, and of
    the code around it: the hash, list and set stores of package [commands],
    saving and sweeping in the memory engine, the locking of the disk engine
    and of the persistent store, the command parser, the dispatcher of the
    TCP server and the configuration loaders.

    Modelling conventions.
    - A Go [map[string]*TriffValue] is a [gmap string TriffValue].  The
      command layer allocates a fresh [TriffValue] for every write and no
      property below speaks about two references to one object, so the
      pointers are modelled by value; a stored pointer is never nil.
    - [int64] (and [int] on a 64-bit platform) is a [Z] whose arithmetic is
      wrapped explicitly by [int64.wrap].
    - [interface{}] payloads are the tagged type [core.dyn]; a failed type
      assertion is the [Panics] outcome.
    - Every read of the wall clock is an explicit argument of the operation
      that performs it.
    - The reader-writer lock of [Database] and [MemoryEngine] is not
      modelled: every operation is one atomic step on the store.  The lock
      of [DiskEngine] and [PersistentStore] is (module [sync]), because their
      writes take it twice.
    - [strings.Fields], [strings.TrimSpace] and [strings.ToUpper] are
      modelled on ASCII text; the properties that use them assume it.
    - JSON and YAML codecs, the file system and the environment are
      parameters of the sections that use them. *)

From Stdlib Require Import ZArith Lia String Ascii.
From stdpp Require Import gmap strings list fin_maps.

Local Open Scope string_scope.
Local Open Scope Z_scope.

(** ** 64-bit two's-complement integers *)

Module int64.

Definition min : Z := - 2 ^ 63.
Definition max : Z := 2 ^ 63 - 1.

Definition InRange (z : Z) : Prop := min <= z <= max.

(** The representative of [z] modulo [2^64] in [[min, max]]. *)
Definition wrap (z : Z) : Z := (z + 2 ^ 63) mod 2 ^ 64 - 2 ^ 63.

Definition add (a b : Z) : Z := wrap (a + b).
Definition sub (a b : Z) : Z := wrap (a - b).
Definition neg (a : Z) : Z := wrap (- a).

End int64.

(** ** The outcome of a Go call that may panic *)

Inductive outcome (A : Type) : Type :=
  | Returns (a : A)
  | Panics.
Arguments Returns {A} a.
Arguments Panics {A}.

#[global] Instance outcome_ret : MRet outcome := @Returns.
#[global] Instance outcome_bind : MBind outcome := fun A B k o =>
  match o with
  | Returns a => k a
  | Panics => Panics
  end.

(** ** package core *)

Module core.

(** [type DataType int] with its [iota] constants. *)
Inductive DataType : Set := STRING | HASH | LIST | SET | ZSET.

#[global] Instance DataType_eq_dec : EqDecision DataType.
Proof. solve_decision. Defined.

(** A value of type [interface{}]: the dynamic types the program stores in
    payloads and responses. *)
Inductive dyn : Type :=
  | VNil
  | VString (s : string)
  | VInt (n : Z)          (* Go [int] *)
  | VInt64 (n : Z)        (* Go [int64] *)
  | VFloat64 (n : Z).     (* a JSON number, as [encoding/json] decodes it *)

(** [time.Time], as seconds since the Unix epoch; [time.Time{}] is the
    first instant of year 1. *)
Definition zeroTime : Z := -62135596800.

Record TriffValue : Type := mkTriffValue {
  Type_ : DataType;
  Data : dyn;
  TTL : Z;               (* int64: absolute expiry in Unix seconds, 0 = none *)
  CreatedAt : Z;
  UpdatedAt : Z;
}.

(** [Database.Data]; the mutex and the configuration play no part below. *)
Abbreviation Database := (gmap string TriffValue).

Module Response.
Record t : Type := mk {
  Success : bool;
  Data : dyn;
  Error : string;
  Type_ : string;
}.
End Response.

Definition NewDatabase : Database := ∅.

(** [Get]: [now] is [time.Now().Unix()]. *)
Definition Get (db : Database) (now : Z) (key : string)
  : option TriffValue * Database :=
  match db !! key with
  | None => (None, db)
  | Some value =>
      if (0 <? TTL value) && (TTL value <? now)
      then (None, delete key db)
      else (Some value, db)
  end.

(** [Set]: [now] is [time.Now()].  The returned error is always nil. *)
Definition Set_ (db : Database) (now : Z) (key : string) (value : TriffValue)
  : option string * Database :=
  let value := mkTriffValue (Type_ value) (Data value) (TTL value)
                            (CreatedAt value) now in
  let value :=
    match db !! key with
    | None => mkTriffValue (Type_ value) (Data value) (TTL value)
                           now (UpdatedAt value)
    | Some _ => value
    end in
  (None, <[key := value]> db).

Definition Delete (db : Database) (key : string) : bool * Database :=
  match db !! key with
  | Some _ => (true, delete key db)
  | None => (false, db)
  end.

Definition Exists (db : Database) (key : string) : bool :=
  match db !! key with
  | Some _ => true
  | None => false
  end.

(** [Keys]: Go iterates a map in an unspecified order; the model lists the
    keys in the order of [map_to_list]. *)
Definition Keys (db : Database) (pattern : string) : list string :=
  filter (fun key => pattern = "*" \/ key = pattern) (map_to_list db).*1.

Definition FlushAll (db : Database) : option string * Database := (None, ∅).

Definition Size (db : Database) : Z := Z.of_nat (size db).

(** [SetTTL]: [now] is [time.Now().Unix()]. *)
Definition SetTTL (db : Database) (now : Z) (key : string) (seconds : Z)
  : bool * Database :=
  match db !! key with
  | Some value =>
      (true, <[key := mkTriffValue (Type_ value) (Data value)
                        (int64.add now seconds)
                        (CreatedAt value) (UpdatedAt value)]> db)
  | None => (false, db)
  end.

(** [GetTTL]: [now] is [time.Now().Unix()]. *)
Definition GetTTL (db : Database) (now : Z) (key : string) : Z :=
  match db !! key with
  | Some value =>
      if TTL value =? 0 then -1
      else
        let remaining := int64.sub (TTL value) now in
        if remaining <=? 0 then -2 else remaining
  | None => -2
  end.

(** [CleanupExpired]: [now] is [time.Now().Unix()], read once. *)
Definition CleanupExpired (db : Database) (now : Z) : Database :=
  filter (fun kv => negb ((0 <? TTL kv.2) && (TTL kv.2 <? now)) = true) db.

End core.

(** ** package strconv / fmt (Go standard library, as documented)

    Go strings are byte sequences, and so are Rocq's: [String.length] is
    Go's [len] and positions are byte offsets. *)

Module strconv.

Definition digit_of (c : ascii) : option Z :=
  let n := Z.of_nat (nat_of_ascii c) in
  if (48 <=? n) && (n <=? 57) then Some (n - 48) else None.

Definition digit_char (d : Z) : ascii := ascii_of_nat (Z.to_nat (48 + d)).

(** The value of a run of decimal digits read after the prefix value [acc];
    [None] when a byte is not a decimal digit. *)
Fixpoint parse_digits (acc : Z) (s : string) : option Z :=
  match s with
  | EmptyString => Some acc
  | String c rest =>
      match digit_of c with
      | Some d => parse_digits (10 * acc + d) rest
      | None => None
      end
  end.

(** [strconv.ParseInt(s, 10, 64)]: an optional sign, then one or more
    decimal digits (no underscores, since the base is given), the value in
    the int64 range.  [None] stands for every non-nil [*NumError]
    (ErrSyntax and ErrRange alike: the callers only test [err != nil]). *)
Definition ParseInt (s : string) : option Z :=
  match s with
  | EmptyString => None
  | String c rest =>
      let '(neg, body) :=
        if Ascii.eqb c "+" then (false, rest)
        else if Ascii.eqb c "-" then (true, rest)
        else (false, s) in
      match body with
      | EmptyString => None
      | _ =>
          match parse_digits 0 body with
          | None => None
          | Some un =>
              if neg then (if un <=? 2 ^ 63 then Some (- un) else None)
              else (if un <? 2 ^ 63 then Some un else None)
          end
      end
  end.

(** The decimal digits of [u], most significant first, in front of [acc];
    [fuel] bounds the number of digits. *)
Fixpoint formatBits (fuel : nat) (u : Z) (acc : string) : string :=
  match fuel with
  | O => acc
  | S fuel' =>
      let acc' := String (digit_char (u mod 10)) acc in
      if u <? 10 then acc' else formatBits fuel' (u / 10) acc'
  end.

(** A uint64 has at most 20 decimal digits. *)
Definition FormatUint (u : Z) : string := formatBits 20 u "".

(** [fmt.Sprintf("%d", i)] for an int64 [i]. *)
Definition FormatInt (i : Z) : string :=
  if i <? 0 then String "-" (FormatUint (- i)) else FormatUint i.

End strconv.

(** ** package commands: StringCommands

    Every command returns its response together with the store it leaves
    behind.  [now] is the [time.Now().Unix()] read by [Database.Get] and
    [stamp] the [time.Now()] read by [Database.Set]. *)

Module commands.
Import core.

(** The type assertion [v.(string)]. *)
Definition assert_string (v : dyn) : outcome string :=
  match v with
  | VString s => Returns s
  | _ => Panics
  end.

(** The slice expression [str[lo:hi]] with its bounds check. *)
Definition slice (str : string) (lo hi : Z) : outcome string :=
  if (0 <=? lo) && (lo <=? hi) && (hi <=? Z.of_nat (String.length str))
  then Returns (substring (Z.to_nat lo) (Z.to_nat (hi - lo)) str)
  else Panics.

Definition not_a_string : Response.t :=
  Response.mk false VNil "value is not a string" "string".

Definition not_an_integer : Response.t :=
  Response.mk false VNil "value is not a valid integer" "string".

(** [Set]: [now] is the [time.Now().Unix()] read when [ttl > 0]. *)
Definition Set_ (db : Database) (now stamp : Z) (key value : string) (ttl : Z)
  : Response.t * Database :=
  let triffValue := mkTriffValue STRING (VString value) ttl zeroTime zeroTime in
  let triffValue :=
    if 0 <? ttl
    then mkTriffValue STRING (VString value) (int64.add now ttl)
                      zeroTime zeroTime
    else triffValue in
  let '(err, db) := core.Set_ db stamp key triffValue in
  match err with
  | Some e => (Response.mk false VNil e "string", db)
  | None => (Response.mk true (VString "OK") "" "string", db)
  end.

Definition Get (db : Database) (now : Z) (key : string)
  : Response.t * Database :=
  let '(value, db) := core.Get db now key in
  match value with
  | None => (Response.mk false VNil "" "string", db)
  | Some value =>
      if decide (Type_ value <> STRING) then (not_a_string, db)
      else (Response.mk true (Data value) "" "string", db)
  end.

Definition Append (db : Database) (now stamp : Z) (key value : string)
  : outcome (Response.t * Database) :=
  let '(existing, db) := core.Get db now key in
  newValue ←
    match existing with
    | Some existing =>
        if decide (Type_ existing = STRING)
        then s ← assert_string (Data existing); mret (s +:+ value)
        else mret value
    | None => mret value
    end;
  let triffValue := mkTriffValue STRING (VString newValue) 0 zeroTime zeroTime in
  let '(_, db) := core.Set_ db stamp key triffValue in
  mret (Response.mk true (VInt (Z.of_nat (String.length newValue))) ""
          "integer", db).

Definition Strlen (db : Database) (now : Z) (key : string)
  : outcome (Response.t * Database) :=
  let '(value, db) := core.Get db now key in
  match value with
  | None => mret (Response.mk true (VInt 0) "" "integer", db)
  | Some value =>
      if decide (Type_ value <> STRING) then mret (not_a_string, db)
      else
        s ← assert_string (Data value);
        mret (Response.mk true (VInt (Z.of_nat (String.length s))) ""
                "integer", db)
  end.

Definition IncrBy (db : Database) (now stamp : Z) (key : string)
  (increment : Z) : outcome (Response.t * Database) :=
  let '(value, db) := core.Get db now key in
  let store (currentValue : Z) : outcome (Response.t * Database) :=
    let newValue := int64.add currentValue increment in
    let triffValue :=
      mkTriffValue STRING (VString (strconv.FormatInt newValue)) 0
                   zeroTime zeroTime in
    let '(_, db) := core.Set_ db stamp key triffValue in
    mret (Response.mk true (VInt64 newValue) "" "integer", db) in
  match value with
  | Some value =>
      if decide (Type_ value <> STRING) then mret (not_a_string, db)
      else
        s ← assert_string (Data value);
        match strconv.ParseInt s with
        | None => mret (not_an_integer, db)
        | Some currentValue => store currentValue
        end
  | None => store 0
  end.

Definition Incr (db : Database) (now stamp : Z) (key : string)
  : outcome (Response.t * Database) :=
  IncrBy db now stamp key 1.

Definition Decr (db : Database) (now stamp : Z) (key : string)
  : outcome (Response.t * Database) :=
  IncrBy db now stamp key (-1).

(** [GetRange]: [start] and [end_] are Go [int]s. *)
Definition GetRange (db : Database) (now : Z) (key : string) (start end_ : Z)
  : outcome (Response.t * Database) :=
  let '(value, db) := core.Get db now key in
  match value with
  | None => mret (Response.mk true (VString "") "" "string", db)
  | Some value =>
      if decide (Type_ value <> STRING) then mret (not_a_string, db)
      else
        str ← assert_string (Data value);
        let length := Z.of_nat (String.length str) in
        (* Handle negative indices *)
        let start := if start <? 0 then int64.add length start else start in
        let end_ := if end_ <? 0 then int64.add length end_ else end_ in
        (* Bounds checking *)
        let start := if start <? 0 then 0 else start in
        let end_ := if length <=? end_ then int64.sub length 1 else end_ in
        if end_ <? start
        then mret (Response.mk true (VString "") "" "string", db)
        else
          result ← slice str start (int64.add end_ 1);
          mret (Response.mk true (VString result) "" "string", db)
  end.

End commands.

(** ** package storage: MemoryEngine and DiskEngine construction

    The file system and [encoding/json] are outside the repository: a path
    names a [file], and the two decoders are parameters of the section. *)

Module storage.
Import core.

(** What [os.Stat] / [os.ReadFile] / [os.Open] find at a path. *)
Inductive file : Type :=
  | NotExist                    (* [os.IsNotExist(err)] *)
  | Unreadable                  (* any other error *)
  | Contents (bytes : string).

Inductive error : Type :=
  | ReadError
  | DecodeError.

Record MemoryEngine : Type := mkMemoryEngine {
  data : gmap string TriffValue;
  persistencePath : string;
  autoSave : bool;
  saveInterval : Z;             (* seconds *)
}.

Record DiskEngine : Type := mkDiskEngine {
  filePath : string;
  disk_data : gmap string string;
}.

Section load.

(** [json.Unmarshal(jsonData, &loadedData)] for a
    [map[string]*core.TriffValue]; [None] is a non-nil error. *)
Variable Unmarshal : string -> option (gmap string TriffValue).

(** [json.NewDecoder(file).Decode(&de.data)] for a [map[string]string]. *)
Variable Decode : string -> option (gmap string string).

Variable fs : string -> file.

(** [loadFromDisk]: the error it returns and the engine it leaves. *)
Definition loadFromDisk (me : MemoryEngine) : option error * MemoryEngine :=
  if decide (persistencePath me = "") then (None, me)
  else
    match fs (persistencePath me) with
    | NotExist => (None, me)
    | Unreadable => (Some ReadError, me)
    | Contents jsonData =>
        match Unmarshal jsonData with
        | None => (Some DecodeError, me)
        | Some loadedData =>
            (None, mkMemoryEngine loadedData (persistencePath me)
                     (autoSave me) (saveInterval me))
        end
    end.

(** [NewMemoryEngine]: the result of [loadFromDisk] is dropped; the
    auto-save goroutine it starts is not part of the model. *)
Definition NewMemoryEngine (persistencePath : string) (autoSave : bool)
  : MemoryEngine :=
  let engine := mkMemoryEngine ∅ persistencePath autoSave 30 in
  if decide (persistencePath <> "")
  then (loadFromDisk engine).2
  else engine.

(** [DiskEngine.load]: decoding adds the decoded entries to [de.data]. *)
Definition load (de : DiskEngine) : option error * DiskEngine :=
  match fs (filePath de) with
  | NotExist => (None, de)
  | Unreadable => (Some ReadError, de)
  | Contents bytes =>
      match Decode bytes with
      | None => (Some DecodeError, de)
      | Some m => (None, mkDiskEngine (filePath de) (m ∪ disk_data de))
      end
  end.

(** [NewDiskEngine]: [inl engine] is [(engine, nil)], [inr err] is
    [(nil, err)]. *)
Definition NewDiskEngine (path : string) : DiskEngine + error :=
  let engine := mkDiskEngine path ∅ in
  match load engine with
  | (Some err, _) => inr err
  | (None, engine) => inl engine
  end.

End load.

End storage.

(** ** package commands: HashStore, ListStore and SetStore

    Each store owns one Go map; the inner maps and slices are modelled by
    value, so a map or slice handed to a caller ([HGetAll], [LRange]) is a
    snapshot.  A returned pair is the Go result pair; [None] is a nil
    error. *)

Module hash_commands.

Inductive error : Type := FieldNotFound | KeyNotFound.

Abbreviation HashStore := (gmap string (gmap string string)).

Definition NewHashStore : HashStore := ∅.

Definition HSet (hs : HashStore) (key field value : string) : HashStore :=
  let hs :=
    match hs !! key with
    | None => <[key := ∅]> hs
    | Some _ => hs
    end in
  <[key := <[field := value]> (default ∅ (hs !! key))]> hs.

Definition HGet (hs : HashStore) (key field : string)
  : string * option error :=
  match hs !! key with
  | Some fields =>
      match fields !! field with
      | Some val => (val, None)
      | None => ("", Some FieldNotFound)
      end
  | None => ("", Some KeyNotFound)
  end.

Definition HDel (hs : HashStore) (key field : string)
  : option error * HashStore :=
  match hs !! key with
  | Some fields =>
      let fields := delete field fields in
      let hs := <[key := fields]> hs in
      if decide (size fields = 0%nat) then (None, delete key hs)
      else (None, hs)
  | None => (Some KeyNotFound, hs)
  end.

Definition HGetAll (hs : HashStore) (key : string)
  : option (gmap string string) * option error :=
  match hs !! key with
  | Some fields => (Some fields, None)
  | None => (None, Some KeyNotFound)
  end.

End hash_commands.

Module list_commands.

Inductive error : Type := EmptyOrNotFound | KeyNotFound.

Abbreviation ListStore := (gmap string (list string)).

Definition NewListStore : ListStore := ∅.

(** [ls.data[key]] of a missing key is the nil slice. *)
Definition LPush (ls : ListStore) (key value : string) : ListStore :=
  <[key := ([value] ++ default [] (ls !! key))%list]> ls.

Definition RPush (ls : ListStore) (key value : string) : ListStore :=
  <[key := (default [] (ls !! key) ++ [value])%list]> ls.

Definition LPop (ls : ListStore) (key : string)
  : string * option error * ListStore :=
  match ls !! key with
  | Some (val :: rest) => (val, None, <[key := rest]> ls)
  | _ => ("", Some EmptyOrNotFound, ls)
  end.

Definition RPop (ls : ListStore) (key : string)
  : string * option error * ListStore :=
  match ls !! key with
  | Some list =>
      match last list with
      | Some val =>
          (val, None, <[key := take (length list - 1) list]> ls)
      | None => ("", Some EmptyOrNotFound, ls)
      end
  | None => ("", Some EmptyOrNotFound, ls)
  end.

Definition LRange (ls : ListStore) (key : string)
  : option (list string) * option error :=
  match ls !! key with
  | Some list => (Some list, None)
  | None => (None, Some KeyNotFound)
  end.

End list_commands.

Module set_commands.

Inductive error : Type := ValueNotFound | KeyNotFound.

Abbreviation SetStore := (gmap string (gset string)).

Definition NewSetStore : SetStore := ∅.

Definition SAdd (ss : SetStore) (key value : string) : SetStore :=
  let ss :=
    match ss !! key with
    | None => <[key := ∅]> ss
    | Some _ => ss
    end in
  <[key := {[value]} ∪ default ∅ (ss !! key)]> ss.

Definition SRem (ss : SetStore) (key value : string)
  : option error * SetStore :=
  match ss !! key with
  | Some set =>
      if decide (value ∈ set) then (None, <[key := set ∖ {[value]}]> ss)
      else (Some ValueNotFound, ss)
  | None => (Some ValueNotFound, ss)
  end.

(** [SMembers]: Go ranges over the set in an unspecified order; the model
    lists the members in the order of [elements]. *)
Definition SMembers (ss : SetStore) (key : string)
  : option (list string) * option error :=
  match ss !! key with
  | Some set => (Some (elements set), None)
  | None => (None, Some KeyNotFound)
  end.

Definition SExists (ss : SetStore) (key value : string) : bool :=
  match ss !! key with
  | Some set => bool_decide (value ∈ set)
  | None => false
  end.

End set_commands.

(** ** package storage: the rest of MemoryEngine *)

Module memory_engine.
Import core storage.

Inductive save_error : Type :=
  | MarshalError
  | WriteError.

(** [CleanupExpired]: [now] is [time.Now().Unix()], read once; the count of
    removed keys is a Go [int]. *)
Definition CleanupExpired (me : MemoryEngine) (now : Z) : Z * MemoryEngine :=
  let is_expired (kv : string * TriffValue) : Prop :=
    (0 <? TTL kv.2) && (TTL kv.2 <? now) = true in
  let removed := length (filter is_expired (map_to_list (data me))) in
  (Z.of_nat removed,
   mkMemoryEngine (filter (fun kv => ~ is_expired kv) (data me))
     (persistencePath me) (autoSave me) (saveInterval me)).

Section save.

(** [json.MarshalIndent(dataCopy, "", "  ")]; [None] is a non-nil error. *)
Variable MarshalIndent : gmap string TriffValue -> option string.

(** [os.WriteFile(path, bytes, 0644)] on a file system: whether it failed,
    and the file system it leaves. *)
Variable WriteFile :
  (string -> file) -> string -> string -> bool * (string -> file).

(** [SaveToDisk]: the error it returns and the file system it leaves. *)
Definition SaveToDisk (me : MemoryEngine) (fs : string -> file)
  : option save_error * (string -> file) :=
  if decide (persistencePath me = "") then (None, fs)
  else
    let dataCopy := data me in
    match MarshalIndent dataCopy with
    | None => (Some MarshalError, fs)
    | Some jsonData =>
        match WriteFile fs (persistencePath me) jsonData with
        | (true, fs') => (None, fs')
        | (false, fs') => (Some WriteError, fs')
        end
    end.

End save.

End memory_engine.

(** ** package sync: a reader-writer lock seen from one goroutine

    [sync.RWMutex] is not reentrant.  The model follows one goroutine while
    no other goroutine touches the lock: a call that has to wait for a lock
    which only the caller itself could release never returns. *)

Module sync.

Inductive RWMutex : Type :=
  | Unlocked
  | RLocked (others : nat)      (* held by [others + 1] readers *)
  | Locked.                     (* held by one writer *)

(** The result of a call that may wait for ever. *)
Inductive run (A : Type) : Type :=
  | Done (a : A)
  | Blocked.
Arguments Done {A} a.
Arguments Blocked {A}.

Definition Lock (mu : RWMutex) : run RWMutex :=
  match mu with
  | Unlocked => Done Locked
  | _ => Blocked
  end.

Definition RLock (mu : RWMutex) : run RWMutex :=
  match mu with
  | Unlocked => Done (RLocked 0)
  | RLocked n => Done (RLocked (S n))
  | Locked => Blocked
  end.

(** Unlocking a lock that is not held is a fatal error; the callers below
    only unlock what they hold. *)
Definition Unlock (mu : RWMutex) : RWMutex :=
  match mu with
  | Locked => Unlocked
  | _ => mu
  end.

Definition RUnlock (mu : RWMutex) : RWMutex :=
  match mu with
  | RLocked 0 => Unlocked
  | RLocked (S n) => RLocked n
  | _ => mu
  end.

End sync.

(** ** package storage: DiskEngine and PersistentStore with their locks *)

Module disk_engine.
Import storage sync.

Inductive error : Type :=
  | KeyNotFound
  | PersistError.

Section disk.

(** The body of [persist] / [Save] between taking and releasing the read
    lock ([os.Create], the JSON encoder, the write): whether it failed, and
    the file system it leaves. *)
Variable write_json :
  (string -> file) -> string -> gmap string string ->
  bool * (string -> file).

Definition persist (mu : RWMutex) (de : DiskEngine) (fs : string -> file)
  : run (option error * (string -> file) * RWMutex) :=
  match RLock mu with
  | Blocked => Blocked
  | Done mu =>
      let '(ok, fs) := write_json fs (filePath de) (disk_data de) in
      Done (if ok then None else Some PersistError, fs, RUnlock mu)
  end.

Definition Set_ (mu : RWMutex) (de : DiskEngine) (fs : string -> file)
  (key value : string)
  : run (option error * DiskEngine * (string -> file) * RWMutex) :=
  match Lock mu with
  | Blocked => Blocked
  | Done mu =>
      let de := mkDiskEngine (filePath de) (<[key := value]> (disk_data de)) in
      match persist mu de fs with
      | Blocked => Blocked
      | Done (err, fs, mu) => Done (err, de, fs, Unlock mu)
      end
  end.

Definition Get (mu : RWMutex) (de : DiskEngine) (key : string)
  : run (string * option error * RWMutex) :=
  match RLock mu with
  | Blocked => Blocked
  | Done mu =>
      match disk_data de !! key with
      | Some val => Done (val, None, RUnlock mu)
      | None => Done ("", Some KeyNotFound, RUnlock mu)
      end
  end.

Definition Delete (mu : RWMutex) (de : DiskEngine) (fs : string -> file)
  (key : string)
  : run (option error * DiskEngine * (string -> file) * RWMutex) :=
  match Lock mu with
  | Blocked => Blocked
  | Done mu =>
      match disk_data de !! key with
      | Some _ =>
          let de := mkDiskEngine (filePath de) (delete key (disk_data de)) in
          match persist mu de fs with
          | Blocked => Blocked
          | Done (err, fs, mu) => Done (err, de, fs, Unlock mu)
          end
      | None => Done (Some KeyNotFound, de, fs, Unlock mu)
      end
  end.

Definition Exists (mu : RWMutex) (de : DiskEngine) : string -> run (bool * RWMutex) :=
  fun key =>
  match RLock mu with
  | Blocked => Blocked
  | Done mu =>
      Done (match disk_data de !! key with Some _ => true | None => false end,
            RUnlock mu)
  end.

Definition Flush (mu : RWMutex) (de : DiskEngine) (fs : string -> file)
  : run (option error * DiskEngine * (string -> file) * RWMutex) :=
  match Lock mu with
  | Blocked => Blocked
  | Done mu =>
      let de := mkDiskEngine (filePath de) ∅ in
      match persist mu de fs with
      | Blocked => Blocked
      | Done (err, fs, mu) => Done (err, de, fs, Unlock mu)
      end
  end.

(** [PersistentStore] has the fields of [DiskEngine]; its [Save] takes the
    read lock like [persist], and its [Set] drops the result of [Save]. *)
Definition Save := persist.

Definition PersistentStore_Set (mu : RWMutex) (ps : DiskEngine)
  (fs : string -> file) (key value : string)
  : run (DiskEngine * (string -> file) * RWMutex) :=
  match Lock mu with
  | Blocked => Blocked
  | Done mu =>
      let ps := mkDiskEngine (filePath ps) (<[key := value]> (disk_data ps)) in
      match Save mu ps fs with
      | Blocked => Blocked
      | Done (_, fs, mu) => Done (ps, fs, Unlock mu)
      end
  end.

End disk.

End disk_engine.

(** ** package commands: the bulk string commands

    [MGet] and [MSet] call [Database.Get] / [Database.Set] once per key, so
    they read the clock once per key: [now i] is the reading of the [i]-th
    [Get], and [stamp key] the reading of the [Set] of [key].  Go ranges
    over the argument map of [MSet] in an unspecified order; [order] is the
    order of one run. *)

Module bulk.
Import core.

Fixpoint MGet_from (i : nat) (db : Database) (now : nat -> Z)
  (keys : list string) : list dyn * Database :=
  match keys with
  | [] => ([], db)
  | key :: keys =>
      let '(value, db) := Get db (now i) key in
      let result :=
        match value with
        | Some value =>
            if decide (Type_ value <> STRING) then VNil else Data value
        | None => VNil
        end in
      let '(results, db) := MGet_from (S i) db now keys in
      (result :: results, db)
  end.

(** [MGet]: the [results] slice; the response is always
    [{Success: true, Data: results, Type: "array"}]. *)
Definition MGet (db : Database) (now : nat -> Z) (keys : list string)
  : list dyn * Database :=
  MGet_from 0 db now keys.

Definition MSet (db : Database) (stamp : string -> Z)
  (order : list (string * string)) : Response.t * Database :=
  (Response.mk true (VString "OK") "" "string",
   foldl (fun db kv =>
            (Set_ db (stamp kv.1) kv.1
               (mkTriffValue STRING (VString kv.2) 0 zeroTime zeroTime)).2)
         db order).

End bulk.

(** ** package strings (Go standard library), on ASCII text

    [strings.Fields], [strings.TrimSpace] and [strings.ToUpper] switch to
    Unicode rules as soon as the text holds a byte above 0x7f.  The
    definitions below are their behaviour on text made of bytes up to 0x7f
    only; every property that uses them assumes such text. *)

Module strings.

Definition is_ascii (c : ascii) : bool := (nat_of_ascii c <? 128)%nat.

Fixpoint ascii_only (s : string) : bool :=
  match s with
  | EmptyString => true
  | String c rest => is_ascii c && ascii_only rest
  end.

(** The ASCII white space of Go: tab, line feed, vertical tab, form feed,
    carriage return and space. *)
Definition is_space (c : ascii) : bool :=
  let n := nat_of_ascii c in
  ((9 <=? n) && (n <=? 13) || (n =? 32))%nat.

Definition upper (c : ascii) : ascii :=
  let n := nat_of_ascii c in
  if ((97 <=? n) && (n <=? 122))%nat then ascii_of_nat (n - 32) else c.

Fixpoint ToUpper (s : string) : string :=
  match s with
  | EmptyString => EmptyString
  | String c rest => String (upper c) (ToUpper rest)
  end.

(** The fields of [s] that follow the field [word] already being read. *)
Fixpoint Fields_from (word : string) (s : string) : list string :=
  match s with
  | EmptyString =>
      match word with
      | EmptyString => []
      | _ => [word]
      end
  | String c rest =>
      if is_space c then
        match word with
        | EmptyString => Fields_from EmptyString rest
        | _ => word :: Fields_from EmptyString rest
        end
      else Fields_from (word +:+ String c EmptyString) rest
  end.

Definition Fields (s : string) : list string := Fields_from EmptyString s.

Fixpoint TrimLeft (s : string) : string :=
  match s with
  | EmptyString => EmptyString
  | String c rest => if is_space c then TrimLeft rest else s
  end.

(** [s] without its trailing white space. *)
Fixpoint TrimRight (s : string) : string :=
  match s with
  | EmptyString => EmptyString
  | String c rest =>
      match TrimRight rest with
      | EmptyString => if is_space c then EmptyString else String c EmptyString
      | rest' => String c rest'
      end
  end.

Definition TrimSpace (s : string) : string := TrimRight (TrimLeft s).

End strings.

(** ** package utils: ParseCommand *)

Module utils.

Inductive error : Type := EmptyCommand.

(** [ParseCommand]: [parts[0]] panics on an empty slice. *)
Definition ParseCommand (input : string)
  : outcome (string * list string * option error) :=
  let input := strings.TrimSpace input in
  if decide (input = "") then Returns ("", [], Some EmptyCommand)
  else
    let parts := strings.Fields input in
    match parts with
    | [] => Panics
    | first :: args => Returns (strings.ToUpper first, args, None)
    end.

End utils.

(** ** package server: the TCP command dispatcher

    [now] is the [time.Now().Unix()] and [stamp] the [time.Now()] that the
    store operations of one command read. *)

Module server.
Import core.

Definition CRLF : string :=
  String (ascii_of_nat 13) (String (ascii_of_nat 10) EmptyString).

(** [fmt.Sprintf("%d", n)]. *)
Definition itoa (n : Z) : string := strconv.FormatInt n.

Definition strlen (s : string) : Z := Z.of_nat (String.length s).

Definition wrong_args (name : string) : string :=
  "-ERR wrong number of arguments for '" +:+ name +:+ "' command".

Definition assert_int64 (v : dyn) : outcome Z :=
  match v with
  | VInt64 n => Returns n
  | _ => Panics
  end.

Definition assert_int (v : dyn) : outcome Z :=
  match v with
  | VInt n => Returns n
  | _ => Panics
  end.

(** [v != nil]. *)
Definition not_nil (v : dyn) : bool :=
  match v with
  | VNil => false
  | _ => true
  end.

(** The reply to a numeric command: [":%d"] or ["-ERR %s"]. *)
Definition number_reply (assert : dyn -> outcome Z) (response : Response.t)
  : outcome string :=
  if Response.Success response then
    n ← assert (Response.Data response); mret (":" +:+ itoa n)
  else mret ("-ERR " +:+ Response.Error response).

Section tcp.

(** The text that the [INFO] loop builds from [db.Info()]: one
    ["key:value\r\n"] line per entry, in map order, with the uptime a
    float. *)
Variable info_lines : Database -> string.

Definition processCommand (db : Database) (now stamp : Z) (input : string)
  : outcome (string * Database) :=
  match strings.Fields input with
  | [] => mret ("-ERR empty command", db)
  | name :: args =>
      let command := strings.ToUpper name in
      if decide (command = "PING") then mret ("+PONG", db)
      else if decide (command = "SET") then
        match args with
        | key :: value :: options =>
            let ttl : option Z :=
              match options with
              | option :: seconds :: _ =>
                  if decide (strings.ToUpper option = "EX")
                  then strconv.ParseInt seconds
                  else Some 0
              | _ => Some 0
              end in
            match ttl with
            | None => mret ("-ERR invalid expire time", db)
            | Some ttl =>
                let '(response, db) :=
                  commands.Set_ db now stamp key value ttl in
                if Response.Success response then mret ("+OK", db)
                else mret ("-ERR " +:+ Response.Error response, db)
            end
        | _ => mret (wrong_args "set", db)
        end
      else if decide (command = "GET") then
        match args with
        | [key] =>
            let '(response, db) := commands.Get db now key in
            if Response.Success response && not_nil (Response.Data response)
            then
              s ← commands.assert_string (Response.Data response);
              mret ("$" +:+ itoa (strlen s) +:+ CRLF +:+ s, db)
            else mret ("$-1", db)
        | _ => mret (wrong_args "get", db)
        end
      else if decide (command = "DEL") then
        match args with
        | [] => mret (wrong_args "del", db)
        | _ =>
            let '(count, db) :=
              foldl (fun '(count, db) key =>
                       let '(deleted, db) := Delete db key in
                       (if deleted then count + 1 else count, db))
                    (0, db) args in
            mret (":" +:+ itoa count, db)
        end
      else if decide (command = "EXISTS") then
        match args with
        | [key] => mret (if Exists db key then ":1" else ":0", db)
        | _ => mret (wrong_args "exists", db)
        end
      else if decide (command = "KEYS") then
        let pattern := match args with [] => "*" | p :: _ => p end in
        let keys := Keys db pattern in
        mret (foldl (fun result key =>
                       result +:+ "$" +:+ itoa (strlen key) +:+ CRLF
                              +:+ key +:+ CRLF)
                    ("*" +:+ itoa (Z.of_nat (length keys)) +:+ CRLF) keys,
              db)
      else if decide (command = "FLUSHALL") then
        mret ("+OK", (FlushAll db).2)
      else if decide (command = "INFO") then
        let result := info_lines db in
        mret ("$" +:+ itoa (strlen result) +:+ CRLF +:+ result, db)
      else if decide (command = "DBSIZE") then
        mret (":" +:+ itoa (Size db), db)
      else if decide (command = "TTL") then
        match args with
        | [key] => mret (":" +:+ itoa (GetTTL db now key), db)
        | _ => mret (wrong_args "ttl", db)
        end
      else if decide (command = "EXPIRE") then
        match args with
        | [key; seconds] =>
            match strconv.ParseInt seconds with
            | None => mret ("-ERR invalid expire time", db)
            | Some seconds =>
                let '(ok, db) := SetTTL db now key seconds in
                mret (if ok then ":1" else ":0", db)
            end
        | _ => mret (wrong_args "expire", db)
        end
      else if decide (command = "INCR") then
        match args with
        | [key] =>
            '(response, db) ← commands.Incr db now stamp key;
            reply ← number_reply assert_int64 response;
            mret (reply, db)
        | _ => mret (wrong_args "incr", db)
        end
      else if decide (command = "DECR") then
        match args with
        | [key] =>
            '(response, db) ← commands.Decr db now stamp key;
            reply ← number_reply assert_int64 response;
            mret (reply, db)
        | _ => mret (wrong_args "decr", db)
        end
      else if decide (command = "APPEND") then
        match args with
        | [key; value] =>
            '(response, db) ← commands.Append db now stamp key value;
            reply ← number_reply assert_int response;
            mret (reply, db)
        | _ => mret (wrong_args "append", db)
        end
      else if decide (command = "STRLEN") then
        match args with
        | [key] =>
            '(response, db) ← commands.Strlen db now key;
            reply ← number_reply assert_int response;
            mret (reply, db)
        | _ => mret (wrong_args "strlen", db)
        end
      else mret ("-ERR unknown command '" +:+ command +:+ "'", db)
  end.

End tcp.

End server.

(** ** package utils: configuration

    [core.Config] with the loaders of [utils]: the environment is the
    function [Getenv] (unset variables read as the empty string), the YAML
    decoder a parameter.  An assignment [config.Port = p] is [set_Port p]. *)

Module config.

Record Config : Type := mkConfig {
  Port : Z;
  HTTPPort : Z;
  MaxMemory : Z;
  PersistencePath : string;
  LogLevel : string;
  EnableHTTP : bool;
  EnableTCP : bool;
}.

Definition set_Port (p : Z) (c : Config) : Config :=
  mkConfig p (HTTPPort c) (MaxMemory c) (PersistencePath c) (LogLevel c)
    (EnableHTTP c) (EnableTCP c).

Definition set_HTTPPort (p : Z) (c : Config) : Config :=
  mkConfig (Port c) p (MaxMemory c) (PersistencePath c) (LogLevel c)
    (EnableHTTP c) (EnableTCP c).

Definition set_MaxMemory (m : Z) (c : Config) : Config :=
  mkConfig (Port c) (HTTPPort c) m (PersistencePath c) (LogLevel c)
    (EnableHTTP c) (EnableTCP c).

Definition set_PersistencePath (path : string) (c : Config) : Config :=
  mkConfig (Port c) (HTTPPort c) (MaxMemory c) path (LogLevel c)
    (EnableHTTP c) (EnableTCP c).

Definition set_LogLevel (level : string) (c : Config) : Config :=
  mkConfig (Port c) (HTTPPort c) (MaxMemory c) (PersistencePath c) level
    (EnableHTTP c) (EnableTCP c).

Definition set_EnableHTTP (b : bool) (c : Config) : Config :=
  mkConfig (Port c) (HTTPPort c) (MaxMemory c) (PersistencePath c)
    (LogLevel c) b (EnableTCP c).

Definition set_EnableTCP (b : bool) (c : Config) : Config :=
  mkConfig (Port c) (HTTPPort c) (MaxMemory c) (PersistencePath c)
    (LogLevel c) (EnableHTTP c) b.

Inductive error : Type :=
  | ReadError
  | YamlError.

(** The default configuration written out in [LoadConfig] and
    [GetEnvConfig]. *)
Definition defaults : Config :=
  mkConfig 6379 8080 (1024 * 1024 * 1024) "./triff.db" "info" true true.

(** [strconv.Atoi] on a 64-bit platform. *)
Definition Atoi (s : string) : option Z := strconv.ParseInt s.

(** [strconv.ParseBool]. *)
Definition ParseBool (s : string) : option bool :=
  if decide (s ∈ ["1"; "t"; "T"; "TRUE"; "true"; "True"]) then Some true
  else if decide (s ∈ ["0"; "f"; "F"; "FALSE"; "false"; "False"])
       then Some false
  else None.

Section env.

Variable Getenv : string -> string.

Definition GetEnvConfig : Config :=
  let config := defaults in
  let config :=
    let port := Getenv "TRIFF_PORT" in
    if decide (port <> "") then
      match Atoi port with
      | Some p => set_Port p config
      | None => config
      end
    else config in
  let config :=
    let httpPort := Getenv "TRIFF_HTTP_PORT" in
    if decide (httpPort <> "") then
      match Atoi httpPort with
      | Some p => set_HTTPPort p config
      | None => config
      end
    else config in
  let config :=
    let maxMem := Getenv "TRIFF_MAX_MEMORY" in
    if decide (maxMem <> "") then
      match strconv.ParseInt maxMem with
      | Some m => set_MaxMemory m config
      | None => config
      end
    else config in
  let config :=
    let persistPath := Getenv "TRIFF_PERSISTENCE_PATH" in
    if decide (persistPath <> "") then set_PersistencePath persistPath config
    else config in
  let config :=
    let logLevel := Getenv "TRIFF_LOG_LEVEL" in
    if decide (logLevel <> "") then set_LogLevel logLevel config
    else config in
  let config :=
    let enableHTTP := Getenv "TRIFF_ENABLE_HTTP" in
    if decide (enableHTTP <> "") then
      match ParseBool enableHTTP with
      | Some b => set_EnableHTTP b config
      | None => config
      end
    else config in
  let config :=
    let enableTCP := Getenv "TRIFF_ENABLE_TCP" in
    if decide (enableTCP <> "") then
      match ParseBool enableTCP with
      | Some b => set_EnableTCP b config
      | None => config
      end
    else config in
  config.

(** [yaml.Unmarshal(data, config)]: the configuration it fills in, starting
    from the one passed; [None] is a non-nil error. *)
Variable yaml_Unmarshal : string -> Config -> option Config.

Variable fs : string -> storage.file.

Definition LoadConfig (filepath : string) : Config + error :=
  let config := defaults in
  if decide (filepath = "") then inl config
  else
    match fs filepath with
    | storage.NotExist => inl config
    | storage.Unreadable => inr ReadError
    | storage.Contents data =>
        match yaml_Unmarshal data config with
        | None => inr YamlError
        | Some config => inl config
        end
    end.

Definition MergeConfigs (filepath : string) : Config + error :=
  match LoadConfig filepath with
  | inr err => inr err
  | inl config =>
      let envConfig := GetEnvConfig in
      let config :=
        if decide (Getenv "TRIFF_PORT" <> "")
        then set_Port (Port envConfig) config else config in
      let config :=
        if decide (Getenv "TRIFF_HTTP_PORT" <> "")
        then set_HTTPPort (HTTPPort envConfig) config else config in
      let config :=
        if decide (Getenv "TRIFF_MAX_MEMORY" <> "")
        then set_MaxMemory (MaxMemory envConfig) config else config in
      let config :=
        if decide (Getenv "TRIFF_PERSISTENCE_PATH" <> "")
        then set_PersistencePath (PersistencePath envConfig) config
        else config in
      let config :=
        if decide (Getenv "TRIFF_LOG_LEVEL" <> "")
        then set_LogLevel (LogLevel envConfig) config else config in
      let config :=
        if decide (Getenv "TRIFF_ENABLE_HTTP" <> "")
        then set_EnableHTTP (EnableHTTP envConfig) config else config in
      let config :=
        if decide (Getenv "TRIFF_ENABLE_TCP" <> "")
        then set_EnableTCP (EnableTCP envConfig) config else config in
      inl config
  end.

End env.

End config.

(** * The vocabulary of the properties *)

Import core.

(** A value's TTL has passed at [now]: an expiry is set and lies strictly
    before [now]. *)
Definition expired (now : Z) (v : TriffValue) : Prop :=
  0 < TTL v /\ TTL v < now.

(** The seconds left before [v] expires, as [GetTTL] computes them. *)
Definition remaining (now : Z) (v : TriffValue) : Z := int64.sub (TTL v) now.

(** A session key written at second 40 with a 60 second TTL, looked at
    again at second 200 and never read in between. *)
Definition stale_db : Database :=
  (commands.Set_ NewDatabase 40 40 "session" "active" 60).2.

Definition stale_value : TriffValue :=
  mkTriffValue STRING (VString "active") 100 40 40.

(** The key ["k"] set at instant 1000 and set again at instant 2000. *)
Definition set_once : Database :=
  (commands.Set_ NewDatabase 0 1000 "k" "a" 0).2.

Definition set_twice : Database :=
  (commands.Set_ set_once 0 2000 "k" "b" 0).2.

(** [key] holds a value that [Get] finds at [now]. *)
Definition live (db : Database) (now : Z) (key : string) (v : TriffValue)
  : Prop :=
  db !! key = Some v /\ ~ expired now v.

(** [key] is absent at [now]: not in the map, or in it with a passed TTL. *)
Definition absent (db : Database) (now : Z) (key : string) : Prop :=
  forall v, db !! key = Some v -> expired now v.

(** Every value tagged STRING carries a Go string: what every write of the
    command layer establishes. *)
Definition well_typed (db : Database) : Prop :=
  forall key v, db !! key = Some v -> Type_ v = STRING ->
                exists s, Data v = VString s.

(** [key] holds the decimal string of [i] as a STRING value. *)
Definition holds_integer (db : Database) (key : string) (i : Z) : Prop :=
  exists v, db !! key = Some v /\ Type_ v = STRING /\
            Data v = VString (strconv.FormatInt i).

(** [db'] differs from [db] at most at [key]. *)
Definition same_elsewhere (db db' : Database) (key : string) : Prop :=
  forall key', key' <> key -> db' !! key' = db !! key'.

Definition integer_reply (i : Z) : Response.t :=
  Response.mk true (VInt64 i) "" "integer".

Definition counter_db : Database :=
  (commands.Set_ NewDatabase 0 0 "counter" "10" 0).2.

(** A possibly negative index resolved against a string of [len] bytes:
    negative indices count from the end. *)
Definition resolve_index (len i : Z) : Z := if i <? 0 then len + i else i.

(** The bytes of [s] from [start] to [end_] inclusive, both resolved and
    clamped to the valid positions [0 .. len-1]; empty when the clamped
    start lies after the clamped end. *)
Definition range_of (s : string) (start end_ : Z) : string :=
  let len := Z.of_nat (String.length s) in
  let lo := Z.max 0 (resolve_index len start) in
  let hi := Z.min (len - 1) (resolve_index len end_) in
  if hi <? lo then ""
  else substring (Z.to_nat lo) (Z.to_nat (hi - lo + 1)) s.

Definition string_reply (s : string) : Response.t :=
  Response.mk true (VString s) "" "string".

Definition hello_db : Database :=
  (commands.Set_ NewDatabase 0 0 "greeting" "hello" 0).2.

(** [key] holds a value with no expiry: [GetTTL] answers -1 and [Get] finds
    the value at every instant. *)
Definition never_expires (db : Database) (key : string) : Prop :=
  exists v, db !! key = Some v /\ TTL v = 0 /\
    (forall t, GetTTL db t key = -1) /\
    (forall t, Get db t key = (Some v, db)).

(** A counter written at second 40 with a 60 second TTL. *)
Definition expiring_db : Database :=
  (commands.Set_ NewDatabase 40 40 "n" "5" 60).2.

(** A decoder for the one document ["{}"], and a disk whose only file,
    [triff.db], holds the truncated document ["{"]. *)
Definition decode_empty_object {V} (bytes : string) : option (gmap string V) :=
  if decide (bytes = "{}") then Some ∅ else None.

Definition truncated_disk (path : string) : storage.file :=
  if decide (path = "triff.db") then storage.Contents "{" else storage.NotExist.

(** A sequence of [Set] calls: each write is the instant it is stamped
    with, the key and the value. *)
Definition set_all (db : Database) (writes : list (Z * string * TriffValue))
  : Database :=
  foldl (fun db w => (Set_ db w.1.1 w.1.2 w.2).2) db writes.

(** [key] holds the string [s] as a STRING value with no expiry. *)
Definition holds_string (db : Database) (key s : string) : Prop :=
  exists v, db !! key = Some v /\ Type_ v = STRING /\
            Data v = VString s /\ TTL v = 0.

Definition length_reply (n : nat) : Response.t :=
  Response.mk true (VInt (Z.of_nat n)) "" "integer".

Definition ok_reply : Response.t :=
  Response.mk true (VString "OK") "" "string".

Definition not_found_reply : Response.t :=
  Response.mk false VNil "" "string".

(** No key of a hash store holds an empty hash. *)
Definition no_empty_hash (hs : hash_commands.HashStore) : Prop :=
  forall key fields, hs !! key = Some fields -> fields <> ∅.

(** [RPush] (resp. [LPush]) of the values [xs], in order, under one key. *)
Definition rpush_all (ls : list_commands.ListStore) (key : string)
  (xs : list string) : list_commands.ListStore :=
  foldl (fun ls x => list_commands.RPush ls key x) ls xs.

Definition lpush_all (ls : list_commands.ListStore) (key : string)
  (xs : list string) : list_commands.ListStore :=
  foldl (fun ls x => list_commands.LPush ls key x) ls xs.

(** Up to [n] calls of [LPop] (resp. [RPop]) on one key, stopping at the
    first error: the values popped, in order, and the store left. *)
Fixpoint lpop_many (n : nat) (ls : list_commands.ListStore) (key : string)
  : list string * list_commands.ListStore :=
  match n with
  | O => ([], ls)
  | S n =>
      match list_commands.LPop ls key with
      | (val, None, ls') =>
          let '(vals, ls'') := lpop_many n ls' key in (val :: vals, ls'')
      | (_, Some _, _) => ([], ls)
      end
  end.

Fixpoint rpop_many (n : nat) (ls : list_commands.ListStore) (key : string)
  : list string * list_commands.ListStore :=
  match n with
  | O => ([], ls)
  | S n =>
      match list_commands.RPop ls key with
      | (val, None, ls') =>
          let '(vals, ls'') := rpop_many n ls' key in (val :: vals, ls'')
      | (_, Some _, _) => ([], ls)
      end
  end.

(** A codec for one document: [stale_db] written as the text ["stale"]. *)
Definition marshal_stale (m : gmap string TriffValue) : option string :=
  Some "stale".

Definition unmarshal_stale (bytes : string) : option (gmap string TriffValue) :=
  if decide (bytes = "stale") then Some stale_db else None.

(** A disk on which every write succeeds. *)
Definition write_file (fs : string -> storage.file) (path bytes : string)
  : bool * (string -> storage.file) :=
  (true, fun p => if decide (p = path) then storage.Contents bytes else fs p).

Definition no_disk (path : string) : storage.file := storage.NotExist.





(** An [INFO] text with no lines. *)
Definition no_info (db : Database) : string := "".

(** The first byte of a reply says what it is: [+] status, [-] error,
    [:] integer, [$] bulk string, [*] array. *)
Definition is_error_reply (reply : string) : Prop :=
  exists rest, reply = String "-" rest.

Definition well_formed_reply (reply : string) : Prop :=
  exists kind rest,
    reply = String kind rest /\ kind ∈ ["+"; "-"; ":"; "$"; "*"]%char.

(** A command has answered on [db]: it returned a well-formed reply and a
    well-typed store, and an error reply means the store is unchanged. *)
Definition settled (db : Database) (o : outcome (string * Database)) : Prop :=
  exists reply db',
    o = Returns (reply, db') /\ well_typed db' /\
    well_formed_reply reply /\ (is_error_reply reply -> db' = db).

(** How one environment variable decides a field of the merged
    configuration: [raw] is the variable's text, [parsed] what the field's
    parser makes of it, [from_file] the value [LoadConfig] returned,
    [fallback] the built-in default. *)
Definition env_rule {A : Type} (raw : string) (parsed : option A)
    (from_file fallback result : A) : Prop :=
  (raw = "" -> result = from_file) /\
  (forall a, raw <> "" -> parsed = Some a -> result = a) /\
  (raw <> "" -> parsed = None -> result = fallback).

(** One environment variable applied to a configuration: the shape of
    every step of [GetEnvConfig] and, with the value already parsed, of
    [MergeConfigs]. *)
Definition env_step {A : Type} (raw : string) (parsed : option A)
    (set : A -> config.Config -> config.Config) (c : config.Config)
    : config.Config :=
  if decide (raw <> "")
  then match parsed with Some a => set a c | None => c end
  else c.

(** * Properties *)

(** ** int64 arithmetic *)

Lemma wrap_in_range z : int64.InRange (int64.wrap z).
Proof.
  unfold int64.InRange, int64.wrap, int64.min, int64.max.
  pose proof (Z.mod_pos_bound (z + 2 ^ 63) (2 ^ 64)). lia.
Qed.

Lemma wrap_id z : int64.InRange z -> int64.wrap z = z.
Proof.
  unfold int64.InRange, int64.wrap, int64.min, int64.max. intros Hz.
  rewrite Z.mod_small by lia. lia.
Qed.

Lemma wrap_add_l a b : int64.wrap (int64.wrap a + b) = int64.wrap (a + b).
Proof.
  unfold int64.wrap.
  replace (a + 2 ^ 63 + b) with (a + b + 2 ^ 63) by lia.
  replace ((a + 2 ^ 63) mod 2 ^ 64 - 2 ^ 63 + b + 2 ^ 63)
    with ((a + 2 ^ 63) mod 2 ^ 64 + b) by lia.
  rewrite Zplus_mod_idemp_l. f_equal. f_equal. lia.
Qed.

Lemma wrap_add_r a b : int64.wrap (a + int64.wrap b) = int64.wrap (a + b).
Proof.
  rewrite (Z.add_comm a (int64.wrap b)), wrap_add_l. f_equal. lia.
Qed.

(** Adding [n] and then its (wrapped) negation is the identity on int64,
    overflow or not. *)
Lemma add_neg_cancel v n :
  int64.InRange v -> int64.add (int64.add v n) (int64.neg n) = v.
Proof.
  intros Hv. unfold int64.add, int64.neg.
  rewrite wrap_add_r, wrap_add_l.
  replace (v + n + - n) with v by lia. by apply wrap_id.
Qed.

(** ** Expiration *)

Lemma expired_test now v :
  (0 <? TTL v) && (TTL v <? now) = true <-> expired now v.
Proof.
  unfold expired. rewrite andb_true_iff, !Z.ltb_lt. tauto.
Qed.

Lemma not_expired_test now v :
  (0 <? TTL v) && (TTL v <? now) = false <-> ~ expired now v.
Proof.
  rewrite <- expired_test. symmetry. apply not_true_iff_false.
Qed.

(** For the expiries the command layer computes from a non-negative TTL
    argument, [expired] is "an expiry is set and [now] is past it". *)
Lemma expired_nonneg_ttl now v :
  0 <= TTL v -> (expired now v <-> TTL v <> 0 /\ TTL v < now).
Proof. unfold expired. lia. Qed.

(** A negative [TTL] field (what [SET k v EX -5] stores) never expires for
    [Get], while [GetTTL] reports the key as gone. *)
Example negative_ttl :
  let db := (commands.Set_ NewDatabase 40 40 "k" "v" (-5)).2 in
  TTL <$> db !! "k" = Some (-5) /\
  (Get db 200 "k").1 = db !! "k" /\
  GetTTL db 200 "k" = -2.
Proof. repeat split; reflexivity. Qed.

Lemma Get_found db now key v :
  db !! key = Some v -> ~ expired now v -> Get db now key = (Some v, db).
Proof.
  intros Hk Hv. unfold Get. rewrite Hk.
  apply not_expired_test in Hv. by rewrite Hv.
Qed.

Lemma Get_evicts db now key v :
  db !! key = Some v -> expired now v ->
  Get db now key = (None, delete key db).
Proof.
  intros Hk Hv. unfold Get. rewrite Hk.
  apply expired_test in Hv. by rewrite Hv.
Qed.

Lemma Get_absent db now key :
  db !! key = None -> Get db now key = (None, db).
Proof. intros Hk. unfold Get. by rewrite Hk. Qed.


(** ** Exists and Keys *)

Lemma Exists_present db key : Exists db key = true <-> is_Some (db !! key).
Proof.
  unfold Exists. destruct (db !! key) as [v|]; split; intros H.
  - by exists v.
  - done.
  - discriminate.
  - by destruct H.
Qed.

Lemma elem_of_Keys db pattern key :
  key ∈ Keys db pattern <->
  (pattern = "*" \/ key = pattern) /\ is_Some (db !! key).
Proof.
  unfold Keys. rewrite list_elem_of_filter, list_elem_of_fmap.
  split; intros [Hp Hk]; (split; [done|]).
  - destruct Hk as ([k v] & -> & Hin). simpl.
    apply elem_of_map_to_list in Hin. by exists v.
  - destruct Hk as [v Hv]. exists (key, v). split; [done|].
    by apply elem_of_map_to_list.
Qed.

Lemma NoDup_Keys db pattern : NoDup (Keys db pattern).
Proof. apply NoDup_filter, NoDup_fst_map_to_list. Qed.

(** [Keys "*"] lists every key of the map, once. *)
Lemma Keys_star db key : key ∈ Keys db "*" <-> is_Some (db !! key).
Proof. rewrite elem_of_Keys. intuition. Qed.

(** A literal pattern selects at most the key equal to it. *)
Lemma Keys_literal db pattern :
  pattern <> "*" ->
  (forall key, key ∈ Keys db pattern -> key = pattern) /\
  (length (Keys db pattern) <= 1)%nat.
Proof.
  intros Hp.
  assert (Hall : forall key, key ∈ Keys db pattern -> key = pattern).
  { intros key [[?|?] _]%elem_of_Keys; [done|done]. }
  split; [done|].
  pose proof (NoDup_Keys db pattern) as Hnd.
  destruct (Keys db pattern) as [|k1 [|k2 l]]; simpl; try lia.
  assert (k1 = pattern) by (apply Hall; set_solver).
  assert (k2 = pattern) by (apply Hall; set_solver).
  subst. apply NoDup_cons in Hnd as [Hnin _]. set_solver.
Qed.

Lemma stale_db_lookup : stale_db !! "session" = Some stale_value.
Proof. reflexivity. Qed.

Lemma stale_value_expired : expired 200 stale_value.
Proof. unfold expired; simpl; lia. Qed.

(** C1 (the code departs from it).  At second 200 the key ["session"] of
    [stale_db] holds a value whose TTL (second 100) has passed: [Get] does
    not find it and [GetTTL] answers -2, yet [Exists] answers true. *)
Theorem Exists_true_for_expired_key :
  stale_db !! "session" = Some stale_value /\
  expired 200 stale_value /\
  (Get stale_db 200 "session").1 = None /\
  GetTTL stale_db 200 "session" = -2 /\
  Exists stale_db "session" = true.
Proof.
  split; [apply stale_db_lookup|]. split; [apply stale_value_expired|].
  split; [|split].
  - by rewrite (Get_evicts _ _ _ _ stale_db_lookup stale_value_expired).
  - reflexivity.
  - apply Exists_present. rewrite stale_db_lookup. by eexists.
Qed.

(** C4 (the code departs from it).  At second 200 [Keys "*"] on [stale_db]
    still lists the expired key ["session"], which [Get] does not find and
    [CleanupExpired] removes. *)
Theorem Keys_star_lists_expired_key :
  expired 200 stale_value /\
  Keys stale_db "*" = ["session"] /\
  (Get stale_db 200 "session").1 = None /\
  CleanupExpired stale_db 200 !! "session" = None.
Proof.
  split; [apply stale_value_expired|]. split; [reflexivity|]. split.
  - by rewrite (Get_evicts _ _ _ _ stale_db_lookup stale_value_expired).
  - unfold CleanupExpired. apply map_lookup_filter_None. right.
    intros v Hv. rewrite stale_db_lookup in Hv. injection Hv as <-.
    simpl. discriminate.
Qed.

(** ** Set and the timestamps *)

(** What [Set] stores: the caller's value with [UpdatedAt] stamped, and with
    [CreatedAt] stamped when the key is new. *)
Lemma Set_stores db now key v :
  exists v',
    (Set_ db now key v).2 !! key = Some v' /\
    Type_ v' = Type_ v /\ Data v' = Data v /\ TTL v' = TTL v /\
    UpdatedAt v' = now /\
    CreatedAt v' = match db !! key with
                   | Some _ => CreatedAt v
                   | None => now
                   end.
Proof.
  unfold Set_. simpl. destruct (db !! key) as [old|];
    eexists; (split; [apply lookup_insert_eq|]); done.
Qed.

Lemma Set_other db now key v key' :
  key' <> key -> (Set_ db now key v).2 !! key' = db !! key'.
Proof. intros Hne. unfold Set_. simpl. by rewrite lookup_insert_ne. Qed.

Lemma Set_no_error db now key v : (Set_ db now key v).1 = None.
Proof. reflexivity. Qed.

(** C3 (the code departs from it).  After the first [Set] the value of
    ["k"] carries [CreatedAt = 1000].  The second [Set] stamps
    [UpdatedAt = 2000] but stores the new value's own [CreatedAt], which is
    the zero [time.Time], instead of keeping 1000. *)
Theorem Set_overwrite_drops_CreatedAt :
  CreatedAt <$> set_once !! "k" = Some 1000 /\
  UpdatedAt <$> set_twice !! "k" = Some 2000 /\
  CreatedAt <$> set_twice !! "k" = Some zeroTime /\
  zeroTime <> 1000.
Proof. repeat split; try reflexivity. discriminate. Qed.

(** ** GetTTL *)

Lemma remaining_exact now v :
  int64.InRange (TTL v - now) -> remaining now v = TTL v - now.
Proof. apply wrap_id. Qed.


(** The boundary: a key whose expiry is exactly [now] has no time left. *)
Example GetTTL_boundary :
  GetTTL stale_db 100 "session" = -2 /\ GetTTL stale_db 99 "session" = 1.
Proof. split; reflexivity. Qed.

(** ** Decimal printing and parsing *)

Lemma digit_cases d :
  0 <= d <= 9 ->
  d = 0 \/ d = 1 \/ d = 2 \/ d = 3 \/ d = 4 \/
  d = 5 \/ d = 6 \/ d = 7 \/ d = 8 \/ d = 9.
Proof. lia. Qed.

Lemma digit_of_digit_char d :
  0 <= d <= 9 -> strconv.digit_of (strconv.digit_char d) = Some d.
Proof.
  intros Hd. destruct (digit_cases d Hd) as [->|[->|[->|[->|[->|[->|[->|[->|[->| ->]]]]]]]]];
    reflexivity.
Qed.

Lemma digit_char_not_sign d :
  0 <= d <= 9 ->
  Ascii.eqb (strconv.digit_char d) "+" = false /\
  Ascii.eqb (strconv.digit_char d) "-" = false.
Proof.
  intros Hd. destruct (digit_cases d Hd) as [->|[->|[->|[->|[->|[->|[->|[->|[->| ->]]]]]]]]];
    split; reflexivity.
Qed.

(** Reading back the digits that [formatBits] wrote continues from [u]. *)
Lemma parse_formatBits fuel : forall u rest,
  0 <= u < 10 ^ Z.of_nat fuel ->
  strconv.parse_digits 0 (strconv.formatBits fuel u rest)
  = strconv.parse_digits u rest.
Proof.
  induction fuel as [|fuel IH]; intros u rest Hu.
  - simpl in *. by replace u with 0 by lia.
  - cbn [strconv.formatBits].
    assert (Hmod : 0 <= u mod 10 <= 9) by (pose proof (Z.mod_pos_bound u 10); lia).
    destruct (u <? 10) eqn:Hlt.
    + apply Z.ltb_lt in Hlt. cbn [strconv.parse_digits].
      rewrite (digit_of_digit_char _ Hmod).
      rewrite Z.mod_small by lia. f_equal.
    + apply Z.ltb_ge in Hlt. rewrite IH.
      * cbn [strconv.parse_digits]. rewrite (digit_of_digit_char _ Hmod).
        f_equal. pose proof (Z.div_mod u 10). lia.
      * rewrite Nat2Z.inj_succ, Z.pow_succ_r in Hu by lia.
        split; [apply Z.div_pos; lia|]. apply Z.div_lt_upper_bound; lia.
Qed.

(** The output of [formatBits] starts with a digit. *)
Lemma formatBits_head fuel : forall u acc,
  0 <= u ->
  exists d rest, 0 <= d <= 9 /\
    strconv.formatBits (S fuel) u acc = String (strconv.digit_char d) rest.
Proof.
  induction fuel as [|fuel IH]; intros u acc Hu.
  - exists (u mod 10), acc.
    split; [pose proof (Z.mod_pos_bound u 10); lia|].
    cbn [strconv.formatBits]. by destruct (u <? 10).
  - change (strconv.formatBits (S (S fuel)) u acc)
      with (let acc' := String (strconv.digit_char (u mod 10)) acc in
            if u <? 10 then acc'
            else strconv.formatBits (S fuel) (u / 10) acc').
    cbv zeta. destruct (u <? 10).
    + exists (u mod 10), acc.
      split; [pose proof (Z.mod_pos_bound u 10); lia|done].
    + apply IH. apply Z.div_pos; lia.
Qed.

Lemma parse_FormatUint u :
  0 <= u <= 2 ^ 63 ->
  strconv.parse_digits 0 (strconv.FormatUint u) = Some u.
Proof.
  intros Hu. unfold strconv.FormatUint. rewrite parse_formatBits; [done|].
  change (10 ^ Z.of_nat 20) with 100000000000000000000.
  change (2 ^ 63) with 9223372036854775808 in Hu. lia.
Qed.

(** Printing an int64 and parsing it back gives the same number. *)
Lemma ParseInt_FormatInt i :
  int64.InRange i -> strconv.ParseInt (strconv.FormatInt i) = Some i.
Proof.
  unfold int64.InRange, int64.min, int64.max. intros Hi.
  unfold strconv.FormatInt. destruct (i <? 0) eqn:Hneg.
  - apply Z.ltb_lt in Hneg.
    assert (Hu : 0 <= - i <= 2 ^ 63) by lia.
    pose proof (parse_FormatUint _ Hu) as Hparse.
    destruct (formatBits_head 19 (- i) "" ltac:(lia)) as (d & rest & Hd & Hfmt).
    unfold strconv.FormatUint in *. unfold strconv.ParseInt.
    change (Ascii.eqb "-" "+") with false. change (Ascii.eqb "-" "-") with true.
    cbv iota beta. rewrite Hfmt in *. rewrite Hparse.
    assert ((- i <=? 2 ^ 63) = true) as -> by (apply Z.leb_le; lia).
    f_equal. lia.
  - apply Z.ltb_ge in Hneg.
    assert (Hu : 0 <= i <= 2 ^ 63) by lia.
    pose proof (parse_FormatUint _ Hu) as Hparse.
    destruct (formatBits_head 19 i "" ltac:(lia)) as (d & rest & Hd & Hfmt).
    unfold strconv.FormatUint in *. rewrite Hfmt in *.
    unfold strconv.ParseInt.
    destruct (digit_char_not_sign d Hd) as [-> ->].
    cbv iota beta. rewrite Hparse.
    assert ((i <? 2 ^ 63) = true) as -> by (apply Z.ltb_lt; lia).
    done.
Qed.

Example ParseInt_examples :
  strconv.ParseInt "11" = Some 11 /\
  strconv.ParseInt "-9223372036854775808" = Some (- 2 ^ 63) /\
  strconv.ParseInt "+007" = Some 7 /\
  strconv.ParseInt "9223372036854775808" = None /\
  strconv.ParseInt "" = None /\
  strconv.ParseInt "-" = None /\
  strconv.ParseInt "1_000" = None /\
  strconv.ParseInt "12a" = None /\
  strconv.FormatInt (- 2 ^ 63) = "-9223372036854775808" /\
  strconv.FormatInt 0 = "0".
Proof. repeat split; reflexivity. Qed.

Lemma ParseInt_in_range s i : strconv.ParseInt s = Some i -> int64.InRange i.
Proof.
  unfold strconv.ParseInt, int64.InRange, int64.min, int64.max.
  destruct s as [|c rest]; [discriminate|].
  destruct (if Ascii.eqb c "+" then (false, rest)
            else if Ascii.eqb c "-" then (true, rest)
            else (false, String c rest)) as [neg body].
  destruct body as [|c' body']; [discriminate|].
  destruct (strconv.parse_digits 0 (String c' body')) as [un|] eqn:Hun;
    [|discriminate].
  assert (Hpos : forall t a u, 0 <= a -> strconv.parse_digits a t = Some u -> 0 <= u).
  { induction t as [|ch t IH]; intros a u Ha; simpl.
    - intros [= <-]. done.
    - unfold strconv.digit_of.
      destruct ((48 <=? Z.of_nat (nat_of_ascii ch)) &&
                (Z.of_nat (nat_of_ascii ch) <=? 57)) eqn:Hd; [|discriminate].
      apply andb_true_iff in Hd as [H1%Z.leb_le H2%Z.leb_le].
      apply IH. lia. }
  apply Hpos in Hun; [|lia].
  destruct neg.
  - destruct (un <=? 2 ^ 63) eqn:Hle; [|discriminate].
    apply Z.leb_le in Hle. intros [= <-]. lia.
  - destruct (un <? 2 ^ 63) eqn:Hlt; [|discriminate].
    apply Z.ltb_lt in Hlt. intros [= <-]. lia.
Qed.

(** ** The numeric commands *)

Lemma Get_live db now key v :
  live db now key v -> Get db now key = (Some v, db).
Proof. intros [Hk Hv]. by apply Get_found. Qed.

Lemma Get_of_absent db now key :
  absent db now key ->
  exists db0, Get db now key = (None, db0) /\
              db0 !! key = None /\ same_elsewhere db db0 key.
Proof.
  intros Habs. destruct (db !! key) as [v|] eqn:Hk.
  - exists (delete key db). split; [|split].
    + apply (Get_evicts _ _ _ v); [done|by apply Habs].
    + apply lookup_delete_eq.
    + intros key' Hne. by apply lookup_delete_ne.
  - exists db. split; [|split]; [by apply Get_absent|done|done].
Qed.

(** Writing a fresh STRING value: what the store holds afterwards. *)
Lemma Set_fresh db stamp key payload :
  exists v',
    (Set_ db stamp key (mkTriffValue STRING payload 0 zeroTime zeroTime)).2
      !! key = Some v' /\
    Type_ v' = STRING /\ Data v' = payload /\ TTL v' = 0.
Proof.
  destruct (Set_stores db stamp key
              (mkTriffValue STRING payload 0 zeroTime zeroTime))
    as (v' & Hk & Hty & Hd & Httl & _).
  by exists v'.
Qed.


Lemma IncrBy_on_integer db now stamp key n v s cur :
  live db now key v -> Type_ v = STRING -> Data v = VString s ->
  strconv.ParseInt s = Some cur ->
  exists db',
    commands.IncrBy db now stamp key n
      = Returns (integer_reply (int64.add cur n), db') /\
    holds_integer db' key (int64.add cur n) /\
    same_elsewhere db db' key.
Proof.
  intros Hlive Hty Hdata Hparse.
  unfold commands.IncrBy. rewrite (Get_live _ _ _ _ Hlive).
  destruct (decide (Type_ v <> STRING)) as [Hne|_]; [done|].
  rewrite Hdata. simpl. rewrite Hparse.
  exists (Set_ db stamp key
            (mkTriffValue STRING
               (VString (strconv.FormatInt (int64.add cur n))) 0
               zeroTime zeroTime)).2.
  split; [reflexivity|]. split.
  - destruct (Set_fresh db stamp key
                (VString (strconv.FormatInt (int64.add cur n))))
      as (v' & Hk & Hty' & Hd & _).
    by exists v'.
  - intros key' Hne. by rewrite Set_other.
Qed.



(** *** Typed payloads: the command layer never panics *)

Lemma well_typed_empty : well_typed NewDatabase.
Proof. intros key v Hk. unfold NewDatabase in Hk. by rewrite lookup_empty in Hk. Qed.

Lemma well_typed_delete db key : well_typed db -> well_typed (delete key db).
Proof.
  intros Hwt key' v Hk. apply lookup_delete_Some in Hk as [_ Hk].
  by apply (Hwt key').
Qed.

Lemma well_typed_Get db now key :
  well_typed db -> well_typed (Get db now key).2.
Proof.
  intros Hwt. unfold Get. destruct (db !! key) as [v|]; [|done].
  destruct ((0 <? TTL v) && (TTL v <? now)); [|done].
  by apply well_typed_delete.
Qed.

Lemma well_typed_Set db stamp key v :
  well_typed db -> (Type_ v = STRING -> exists s, Data v = VString s) ->
  well_typed (Set_ db stamp key v).2.
Proof.
  intros Hwt Hv key' v' Hk Hty.
  destruct (decide (key' = key)) as [->|Hne].
  - destruct (Set_stores db stamp key v) as (w & Hw & Hty' & Hd & _).
    rewrite Hw in Hk. injection Hk as <-. rewrite Hd. apply Hv. congruence.
  - rewrite Set_other in Hk by done. by apply (Hwt key').
Qed.

(** [StringCommands.Set] stores a STRING value whose expiry is [now + ttl]
    for a positive [ttl] and [ttl] itself otherwise. *)
Lemma command_Set_stores db now stamp key value ttl :
  (commands.Set_ db now stamp key value ttl).2
  = (Set_ db stamp key
       (mkTriffValue STRING (VString value)
          (if 0 <? ttl then int64.add now ttl else ttl)
          zeroTime zeroTime)).2.
Proof. unfold commands.Set_. by destruct (0 <? ttl). Qed.

Lemma well_typed_command_Set db now stamp key value ttl :
  well_typed db -> well_typed (commands.Set_ db now stamp key value ttl).2.
Proof.
  intros Hwt. rewrite command_Set_stores.
  apply well_typed_Set; [done|]. simpl. eauto.
Qed.

(** Closes a goal [exists r db', Returns (_, (Set_ ..).2) = Returns (r, db')
    /\ well_typed db'] left by a command that ends in a write. *)
Ltac finish_write :=
  lazymatch goal with
  | |- context [Set_ ?d ?t ?k ?v] =>
      let HSet := fresh "HSet" in
      let db1 := fresh "db1" in
      destruct (Set_ d t k v) as [? db1] eqn:HSet;
      do 2 eexists; split; [reflexivity|];
      replace db1 with (Set_ d t k v).2 by (by rewrite HSet);
      apply well_typed_Set; [assumption | simpl; eauto]
  end.

(** On a well-typed store [IncrBy] returns, and the store it leaves is
    well typed again. *)
Lemma IncrBy_returns db now stamp key n :
  well_typed db ->
  exists r db',
    commands.IncrBy db now stamp key n = Returns (r, db') /\ well_typed db'.
Proof.
  intros Hwt. pose proof (well_typed_Get db now key Hwt) as Hwt0.
  unfold commands.IncrBy, Get in *. destruct (db !! key) as [v|] eqn:Hk.
  - destruct ((0 <? TTL v) && (TTL v <? now)); cbn -[Set_] in *.
    + finish_write.
    + destruct (decide (Type_ v <> STRING)) as [Hne|Heq]; [by eauto|].
      destruct (Hwt key v Hk) as [s Hs]; [by apply dec_stable|].
      rewrite Hs. cbn -[Set_].
      destruct (strconv.ParseInt s); [|by eauto]. finish_write.
  - cbn -[Set_] in *. finish_write.
Qed.

(** On a well-typed store [Append] returns, and the store it leaves is
    well typed again. *)
Lemma Append_well_typed db now stamp key value :
  well_typed db ->
  exists r db',
    commands.Append db now stamp key value = Returns (r, db') /\
    well_typed db'.
Proof.
  intros Hwt. pose proof (well_typed_Get db now key Hwt) as Hwt0.
  unfold commands.Append, Get in *. destruct (db !! key) as [v|] eqn:Hk.
  - destruct ((0 <? TTL v) && (TTL v <? now)); cbn -[Set_] in *.
    + finish_write.
    + destruct (decide (Type_ v = STRING)) as [Heq|Hne].
      * destruct (Hwt key v Hk Heq) as [s Hs]. rewrite Hs. cbn -[Set_].
        finish_write.
      * cbn -[Set_]. finish_write.
  - cbn -[Set_] in *. finish_write.
Qed.

(** The one way to a panic: a value tagged STRING whose payload is not a Go
    string, which only a direct caller of [Database.Set] can store. *)
Lemma IncrBy_panics_on_mistyped_payload db now stamp key n v :
  live db now key v -> Type_ v = STRING ->
  (forall s, Data v <> VString s) ->
  commands.IncrBy db now stamp key n = Panics.
Proof.
  intros Hlive Hty Hdata.
  unfold commands.IncrBy. rewrite (Get_live _ _ _ _ Hlive).
  destruct (decide (Type_ v <> STRING)) as [Hne|_]; [done|].
  destruct (Data v) as [|s| | |]; try reflexivity. by destruct (Hdata s).
Qed.


(** [SET counter 10], [INCR counter], [GET counter] yields ["11"]. *)
Example incr_counter :
  let db1 := (commands.Set_ NewDatabase 0 0 "counter" "10" 0).2 in
  exists db2,
    commands.Incr db1 1 1 "counter" = Returns (integer_reply 11, db2) /\
    Response.Data (commands.Get db2 2 "counter").1 = VString "11".
Proof. eexists. split; reflexivity. Qed.

(** The round trip survives overflow: [max + 1] wraps to [min], and
    subtracting 1 again wraps back. *)
Example incr_overflow :
  let db1 :=
    (commands.Set_ NewDatabase 0 0 "c" "9223372036854775807" 0).2 in
  ('(r1, db2) ← commands.Incr db1 1 1 "c";
   '(r2, db3) ← commands.Decr db2 2 2 "c";
   mret (Response.Data r1, Response.Data r2,
         Response.Data (commands.Get db3 3 "c").1))
  = Returns (VInt64 (- 2 ^ 63), VInt64 (2 ^ 63 - 1),
             VString "9223372036854775807").
Proof. vm_compute. reflexivity. Qed.

(** [SET user 1], [APPEND user 2], [STRLEN user] yields 2. *)
Example append_strlen :
  let db1 := (commands.Set_ NewDatabase 0 0 "user" "1" 0).2 in
  ('(r1, db2) ← commands.Append db1 1 1 "user" "2";
   '(r2, db3) ← commands.Strlen db2 2 "user";
   mret (Response.Data r1, Response.Data r2))
  = Returns (VInt 2, VInt 2).
Proof. vm_compute. reflexivity. Qed.

(** A value that [Get] finds at every instant: no expiry is set. *)
Lemma live_forever db key v now :
  db !! key = Some v -> TTL v = 0 -> live db now key v.
Proof. intros Hk Httl. split; [done|]. unfold expired. lia. Qed.

(** C8. When [key] holds a STRING value that parses as the integer [i],
    [IncrBy key n] followed (at any later instant) by [IncrBy key (-n)]
    succeeds twice, answers [i], and leaves [key] holding the decimal string
    of [i], which parses back to [i]. *)
Theorem IncrBy_round_trip
  (db : Database) (now stamp now' stamp' : Z) (key : string) (n : Z)
  (v : TriffValue) (s : string) (i : Z) :
  live db now key v -> Type_ v = STRING -> Data v = VString s ->
  strconv.ParseInt s = Some i ->
  int64.InRange n ->
  exists db1 db2,
    commands.IncrBy db now stamp key n
      = Returns (integer_reply (int64.add i n), db1) /\
    commands.IncrBy db1 now' stamp' key (int64.neg n)
      = Returns (integer_reply i, db2) /\
    holds_integer db2 key i /\
    strconv.ParseInt (strconv.FormatInt i) = Some i.
Proof.
  intros Hlive Hty Hdata Hparse _.
  pose proof (ParseInt_in_range _ _ Hparse) as Hi.
  destruct (IncrBy_on_integer db now stamp key n v s i Hlive Hty Hdata Hparse)
    as (db1 & Hrun1 & (v1 & Hk1 & Hty1 & Hdata1) & _).
  assert (Httl1 : TTL v1 = 0).
  { unfold commands.IncrBy in Hrun1. rewrite (Get_live _ _ _ _ Hlive) in Hrun1.
    destruct (decide (Type_ v <> STRING)) as [Hne|_]; [done|].
    rewrite Hdata in Hrun1. simpl in Hrun1. rewrite Hparse in Hrun1.
    injection Hrun1 as <-. rewrite lookup_insert_eq in Hk1.
    injection Hk1 as <-. by destruct (db !! key). }
  assert (Hparse1 : strconv.ParseInt (strconv.FormatInt (int64.add i n))
                    = Some (int64.add i n))
    by apply ParseInt_FormatInt, wrap_in_range.
  destruct (IncrBy_on_integer db1 now' stamp' key (int64.neg n) v1 _ _
              (live_forever _ _ _ now' Hk1 Httl1) Hty1 Hdata1 Hparse1)
    as (db2 & Hrun2 & Hholds2 & _).
  rewrite (add_neg_cancel i n Hi) in Hrun2, Hholds2.
  exists db1, db2. repeat split; try done.
  by apply ParseInt_FormatInt.
Qed.

Lemma IncrBy_round_trip_witness :
  exists db1 db2,
    commands.IncrBy counter_db 1 1 "counter" 5
      = Returns (integer_reply (int64.add 10 5), db1) /\
    commands.IncrBy db1 2 2 "counter" (int64.neg 5)
      = Returns (integer_reply 10, db2) /\
    holds_integer db2 "counter" 10 /\
    strconv.ParseInt (strconv.FormatInt 10) = Some 10.
Proof.
  apply (IncrBy_round_trip counter_db 1 1 2 2 "counter" 5
           (mkTriffValue STRING (VString "10") 0 0 0) "10" 10).
  - split; [reflexivity|]. unfold expired; simpl; lia.
  - reflexivity.
  - reflexivity.
  - reflexivity.
  - unfold int64.InRange, int64.min, int64.max. lia.
Defined.

(** ** GetRange *)

Lemma length_substring s : forall n m,
  (n + m <= String.length s)%nat -> String.length (substring n m s) = m.
Proof.
  induction s as [|c s IH]; intros n m Hle; simpl in *.
  - assert (n = 0%nat) by lia. assert (m = 0%nat) by lia. by subst.
  - destruct n as [|n]; destruct m as [|m]; simpl; try done.
    + f_equal. apply IH. lia.
    + apply IH. lia.
    + apply IH. lia.
Qed.

(** [range_of] returns exactly the bytes at the positions [lo .. hi]. *)
Lemma range_of_bytes s start end_ :
  let len := Z.of_nat (String.length s) in
  let lo := Z.max 0 (resolve_index len start) in
  let hi := Z.min (len - 1) (resolve_index len end_) in
  (hi < lo -> range_of s start end_ = "") /\
  (lo <= hi ->
     0 <= lo /\ hi < len /\
     Z.of_nat (String.length (range_of s start end_)) = hi - lo + 1 /\
     forall j, 0 <= j <= hi - lo ->
       get (Z.to_nat j) (range_of s start end_) = get (Z.to_nat (lo + j)) s).
Proof.
  intros len lo hi. unfold range_of. fold len. fold lo. fold hi. split.
  - intros Hlt. apply Z.ltb_lt in Hlt. by rewrite Hlt.
  - intros Hle. assert (Hge : (hi <? lo) = false) by (apply Z.ltb_ge; lia).
    rewrite Hge. assert (0 <= lo) by (unfold lo; lia).
    assert (hi < len) by (unfold hi; lia).
    split; [done|]. split; [done|]. split.
    + rewrite length_substring by (subst len; lia). lia.
    + intros j Hj. rewrite substring_correct1 by lia. f_equal. lia.
Qed.

Lemma resolve_start len i :
  0 <= len <= int64.max -> int64.InRange i ->
  (if i <? 0 then int64.add len i else i) = resolve_index len i.
Proof.
  unfold resolve_index, int64.add, int64.InRange, int64.min, int64.max.
  intros Hlen Hi. destruct (i <? 0) eqn:Hneg; [|done].
  apply Z.ltb_lt in Hneg. apply wrap_id.
  unfold int64.InRange, int64.min, int64.max. lia.
Qed.

Lemma GetRange_result db now key start end_ v s :
  live db now key v -> Type_ v = STRING -> Data v = VString s ->
  Z.of_nat (String.length s) <= int64.max ->
  int64.InRange start -> int64.InRange end_ ->
  commands.GetRange db now key start end_
  = Returns (string_reply (range_of s start end_), db).
Proof.
  intros Hlive Hty Hdata Hlen Hstart Hend.
  unfold commands.GetRange. rewrite (Get_live _ _ _ _ Hlive).
  destruct (decide (Type_ v <> STRING)) as [Hne|_]; [done|].
  rewrite Hdata. simpl. unfold range_of.
  set (len := Z.of_nat (String.length s)) in *.
  assert (Hlen0 : 0 <= len <= int64.max) by (subst len; lia).
  rewrite !resolve_start by done.
  set (a := resolve_index len start). set (b := resolve_index len end_).
  assert (Ha : int64.min <= a <= int64.max).
  { subst a. unfold resolve_index, int64.InRange, int64.min, int64.max in *.
    destruct (start <? 0) eqn:E; [apply Z.ltb_lt in E|apply Z.ltb_ge in E]; lia. }
  assert (Hb : int64.min <= b <= int64.max).
  { subst b. unfold resolve_index, int64.InRange, int64.min, int64.max in *.
    destruct (end_ <? 0) eqn:E; [apply Z.ltb_lt in E|apply Z.ltb_ge in E]; lia. }
  assert (Hlo : (if a <? 0 then 0 else a) = Z.max 0 a).
  { destruct (a <? 0) eqn:E; [apply Z.ltb_lt in E|apply Z.ltb_ge in E]; lia. }
  assert (Hhi : (if len <=? b then int64.sub len 1 else b) = Z.min (len - 1) b).
  { destruct (len <=? b) eqn:E; [apply Z.leb_le in E|apply Z.leb_gt in E].
    - unfold int64.sub. rewrite wrap_id; [lia|].
      unfold int64.InRange, int64.min, int64.max in *. lia.
    - lia. }
  rewrite Hlo, Hhi.
  set (lo := Z.max 0 a). set (hi := Z.min (len - 1) b).
  destruct (hi <? lo) eqn:Hcmp; [done|]. apply Z.ltb_ge in Hcmp.
  assert (Hhi1 : int64.add hi 1 = hi + 1).
  { apply wrap_id. unfold int64.InRange, int64.min, int64.max in *.
    subst hi lo. lia. }
  rewrite Hhi1. unfold commands.slice. fold len.
  assert (((0 <=? lo) && (lo <=? hi + 1) && (hi + 1 <=? len)) = true) as ->.
  { rewrite !andb_true_iff, !Z.leb_le. subst hi lo. lia. }
  simpl. replace (hi + 1 - lo) with (hi - lo + 1) by lia. reflexivity.
Qed.

(** C9. On a STRING value [s] that [Get] finds, [GetRange] never panics and
    answers [range_of s start end_]: negative indices are resolved from the
    end of the string, the bounds are clamped to the positions
    [0 .. len-1], the answer is empty when the clamped start lies after the
    clamped end and otherwise consists of exactly the bytes from the clamped
    start to the clamped end.  On ["hello"]: [(0,-1)] gives ["hello"],
    [(10,20)] gives [""] and [(-3,-1)] gives ["llo"]. *)
Theorem GetRange_contract :
  (forall db now key start end_ v s,
     live db now key v -> Type_ v = STRING -> Data v = VString s ->
     Z.of_nat (String.length s) <= int64.max ->
     int64.InRange start -> int64.InRange end_ ->
     let len := Z.of_nat (String.length s) in
     let lo := Z.max 0 (resolve_index len start) in
     let hi := Z.min (len - 1) (resolve_index len end_) in
     exists result,
       commands.GetRange db now key start end_
         = Returns (string_reply result, db) /\
       (hi < lo -> result = "") /\
       (lo <= hi ->
          0 <= lo /\ hi < len /\
          Z.of_nat (String.length result) = hi - lo + 1 /\
          forall j, 0 <= j <= hi - lo ->
            get (Z.to_nat j) result = get (Z.to_nat (lo + j)) s)) /\
  commands.GetRange hello_db 1 "greeting" 0 (-1)
    = Returns (string_reply "hello", hello_db) /\
  commands.GetRange hello_db 1 "greeting" 10 20
    = Returns (string_reply "", hello_db) /\
  commands.GetRange hello_db 1 "greeting" (-3) (-1)
    = Returns (string_reply "llo", hello_db).
Proof.
  split; [|repeat split; reflexivity].
  intros db now key start end_ v s Hlive Hty Hdata Hlen Hstart Hend len lo hi.
  exists (range_of s start end_). split.
  - by apply (GetRange_result db now key start end_ v s).
  - apply range_of_bytes.
Qed.

(** ** Writes by Append and IncrBy drop the expiry *)

Lemma fresh_value_never_expires db stamp key payload :
  never_expires
    (Set_ db stamp key (mkTriffValue STRING payload 0 zeroTime zeroTime)).2
    key.
Proof.
  destruct (Set_fresh db stamp key payload) as (v & Hk & _ & _ & Httl).
  exists v. split; [done|]. split; [done|]. split.
  - intros t. unfold GetTTL. rewrite Hk. by rewrite Httl.
  - intros t. apply Get_live. by apply live_forever.
Qed.

(** Whenever [Append] returns, it has stored a fresh STRING value. *)
Lemma Append_returns db now stamp key value r db' :
  commands.Append db now stamp key value = Returns (r, db') ->
  exists newValue,
    r = Response.mk true (VInt (Z.of_nat (String.length newValue))) ""
          "integer" /\
    db' = (Set_ (Get db now key).2 stamp key
             (mkTriffValue STRING (VString newValue) 0 zeroTime zeroTime)).2.
Proof.
  unfold commands.Append. destruct (Get db now key) as [existing db0]. simpl.
  destruct existing as [e|].
  - destruct (decide (Type_ e = STRING)) as [Hty|Hty].
    + destruct (Data e) as [|s| | |]; simpl; try discriminate.
      intros [= <- <-]. by eexists.
    + simpl. intros [= <- <-]. by eexists.
  - simpl. intros [= <- <-]. by eexists.
Qed.

(** Whenever [IncrBy] returns a success, it has stored a fresh STRING
    value. *)
Lemma IncrBy_success db now stamp key n r db' :
  commands.IncrBy db now stamp key n = Returns (r, db') ->
  Response.Success r = true ->
  exists newValue,
    r = integer_reply newValue /\
    db' = (Set_ (Get db now key).2 stamp key
             (mkTriffValue STRING (VString (strconv.FormatInt newValue)) 0
                zeroTime zeroTime)).2.
Proof.
  unfold commands.IncrBy. destruct (Get db now key) as [existing db0]. simpl.
  destruct existing as [e|].
  - destruct (decide (Type_ e <> STRING)) as [Hty|Hty].
    + intros [= <- <-]. discriminate.
    + destruct (Data e) as [|s| | |]; simpl; try discriminate.
      destruct (strconv.ParseInt s) as [cur|].
      * intros [= <- <-] _. by eexists.
      * intros [= <- <-]. discriminate.
  - intros [= <- <-] _. by eexists.
Qed.

(** C10. When [key] holds a value with an expiry set, a successful [Append]
    or [IncrBy] on it stores a fresh value whose TTL is 0: afterwards
    [GetTTL] answers -1 and [Get] finds the key at every instant. *)
Theorem writes_clear_expiry
  (db : Database) (now stamp : Z) (key : string) (old : TriffValue) :
  db !! key = Some old -> TTL old <> 0 ->
  (forall value r db',
     commands.Append db now stamp key value = Returns (r, db') ->
     Response.Success r = true ->
     never_expires db' key) /\
  (forall n r db',
     commands.IncrBy db now stamp key n = Returns (r, db') ->
     Response.Success r = true ->
     never_expires db' key).
Proof.
  intros _ _. split.
  - intros value r db' Hrun _.
    destruct (Append_returns _ _ _ _ _ _ _ Hrun) as (nv & _ & ->).
    apply fresh_value_never_expires.
  - intros n r db' Hrun Hok.
    destruct (IncrBy_success _ _ _ _ _ _ _ Hrun Hok) as (nv & _ & ->).
    apply fresh_value_never_expires.
Qed.

Lemma writes_clear_expiry_witness :
  GetTTL expiring_db 50 "n" = 50 /\
  (exists r db', commands.Append expiring_db 50 50 "n" "0" = Returns (r, db')
                 /\ never_expires db' "n") /\
  (exists r db', commands.IncrBy expiring_db 50 50 "n" 1 = Returns (r, db')
                 /\ never_expires db' "n").
Proof.
  destruct (writes_clear_expiry expiring_db 50 50 "n"
              (mkTriffValue STRING (VString "5") 100 40 40))
    as [HAppend HIncrBy].
  - reflexivity.
  - discriminate.
  - split; [reflexivity|]. split.
    + do 2 eexists. split; [reflexivity|].
      eapply HAppend; reflexivity.
    + do 2 eexists. split; [reflexivity|].
      eapply HIncrBy; reflexivity.
Defined.

(** ** Loading the persistence file at construction *)

Section construction.

Variable Unmarshal : string -> option (gmap string TriffValue).
Variable Decode : string -> option (gmap string string).
Variable fs : string -> storage.file.

(** With no file at the path both engines start empty and no error is
    reported. *)
Lemma construction_without_file path autoSave :
  fs path = storage.NotExist ->
  storage.data (storage.NewMemoryEngine Unmarshal fs path autoSave) = ∅ /\
  (storage.loadFromDisk Unmarshal fs
     (storage.mkMemoryEngine ∅ path autoSave 30)).1 = None /\
  storage.NewDiskEngine Decode fs path = inl (storage.mkDiskEngine path ∅).
Proof.
  intros Hfs. unfold storage.NewMemoryEngine, storage.loadFromDisk,
    storage.NewDiskEngine, storage.load.
  simpl. rewrite Hfs.
  destruct (decide (path <> "")), (decide (path = "")); done.
Qed.

(** A well-formed file is loaded by both engines. *)
Lemma construction_with_valid_file path autoSave bytes m :
  path <> "" -> fs path = storage.Contents bytes ->
  Unmarshal bytes = Some m ->
  storage.data (storage.NewMemoryEngine Unmarshal fs path autoSave) = m.
Proof.
  intros Hpath Hfs Hdec. unfold storage.NewMemoryEngine, storage.loadFromDisk.
  simpl. rewrite Hfs, Hdec.
  destruct (decide (path <> "")), (decide (path = "")); done.
Qed.

(** C5 (the code departs from it).  With a file at a non-empty path whose
    contents the decoders reject, [loadFromDisk] reports the decode error
    and [NewDiskEngine] fails with it, but [NewMemoryEngine] drops the error
    and hands back a usable engine with an empty store. *)
Theorem NewMemoryEngine_drops_decode_error path autoSave bytes :
  path <> "" -> fs path = storage.Contents bytes ->
  Unmarshal bytes = None -> Decode bytes = None ->
  (storage.loadFromDisk Unmarshal fs
     (storage.mkMemoryEngine ∅ path autoSave 30)).1
    = Some storage.DecodeError /\
  storage.NewMemoryEngine Unmarshal fs path autoSave
    = storage.mkMemoryEngine ∅ path autoSave 30 /\
  storage.NewDiskEngine Decode fs path = inr storage.DecodeError.
Proof.
  intros Hpath Hfs HU HD. unfold storage.NewMemoryEngine, storage.loadFromDisk,
    storage.NewDiskEngine, storage.load.
  simpl. rewrite Hfs, HU, HD.
  destruct (decide (path <> "")), (decide (path = "")); done.
Qed.

End construction.

Lemma NewMemoryEngine_drops_decode_error_witness :
  (storage.loadFromDisk decode_empty_object truncated_disk
     (storage.mkMemoryEngine ∅ "triff.db" false 30)).1
    = Some storage.DecodeError /\
  storage.NewMemoryEngine decode_empty_object truncated_disk "triff.db" false
    = storage.mkMemoryEngine ∅ "triff.db" false 30 /\
  storage.NewDiskEngine decode_empty_object truncated_disk "triff.db"
    = inr storage.DecodeError.
Proof.
  apply (NewMemoryEngine_drops_decode_error
           decode_empty_object decode_empty_object truncated_disk
           "triff.db" false "{").
  - discriminate.
  - reflexivity.
  - reflexivity.
  - reflexivity.
Defined.

(** * Further properties of the store *)

(** ** The sweep *)

Lemma CleanupExpired_lookup db now key v :
  CleanupExpired db now !! key = Some v <-> live db now key v.
Proof.
  unfold CleanupExpired, live. rewrite map_lookup_filter_Some. simpl.
  by rewrite negb_true_iff, not_expired_test.
Qed.

Lemma expired_later now now' v : now <= now' -> expired now v -> expired now' v.
Proof. unfold expired. lia. Qed.

(** X1. [CleanupExpired] keeps exactly the entries that [Get] would find at
    the instant of the sweep, unchanged.  Sweeping again at the same instant
    changes nothing, and a sweep followed by a later sweep leaves what the
    later sweep alone leaves. *)
Theorem CleanupExpired_sweep (db : Database) (now : Z) :
  (forall key v, CleanupExpired db now !! key = Some v <-> live db now key v) /\
  CleanupExpired (CleanupExpired db now) now = CleanupExpired db now /\
  (forall now', now <= now' ->
     CleanupExpired (CleanupExpired db now) now' = CleanupExpired db now').
Proof.
  assert (Hlater : forall now', now <= now' ->
            CleanupExpired (CleanupExpired db now) now' = CleanupExpired db now').
  { intros now' Hle. apply map_eq. intros key. apply option_eq. intros v.
    rewrite !CleanupExpired_lookup. unfold live at 1.
    rewrite CleanupExpired_lookup. unfold live. split.
    - intros [[Hk _] Hv]. done.
    - intros [Hk Hv]. repeat split; try done.
      intros Hexp. apply Hv. by apply (expired_later now now'). }
  split; [apply CleanupExpired_lookup|]. split; [|done].
  apply Hlater. lia.
Qed.

(** X2. After a sweep at [now], the read paths agree at [now]: [Exists]
    answers true, and [Keys "*"] lists the key, exactly when the key was
    live before the sweep; [Get] finds what it found before the sweep and
    has nothing left to evict. *)
Theorem reads_agree_after_sweep (db : Database) (now : Z) (key : string) :
  (Exists (CleanupExpired db now) key = true <-> exists v, live db now key v) /\
  (key ∈ Keys (CleanupExpired db now) "*" <-> exists v, live db now key v) /\
  (Get (CleanupExpired db now) now key).1 = (Get db now key).1 /\
  (Get (CleanupExpired db now) now key).2 = CleanupExpired db now.
Proof.
  assert (Hsome : is_Some (CleanupExpired db now !! key)
                  <-> exists v, live db now key v).
  { unfold is_Some. by setoid_rewrite CleanupExpired_lookup. }
  split; [by rewrite Exists_present|]. split; [by rewrite Keys_star|].
  destruct (CleanupExpired db now !! key) as [v|] eqn:Hk.
  - pose proof Hk as Hlive. apply CleanupExpired_lookup in Hlive.
    rewrite (Get_live _ _ _ _ Hlive).
    destruct Hlive as [_ Hv]. by rewrite (Get_found _ _ _ _ Hk Hv).
  - rewrite (Get_absent _ _ _ Hk). split; [|done]. simpl.
    destruct (db !! key) as [v|] eqn:Hdb.
    + destruct (decide (expired now v)) as [Hexp|Hexp].
      * by rewrite (Get_evicts _ _ _ _ Hdb Hexp).
      * assert (CleanupExpired db now !! key = Some v) as Hin
          by (by apply CleanupExpired_lookup). congruence.
    + by rewrite (Get_absent _ _ _ Hdb).
Qed.

(** ** Delete, FlushAll and Size *)

(** X3. [Delete] answers whether the key was in the map; afterwards the key
    is gone, every other key is untouched, [Size] has dropped by one exactly
    when the answer was true, and a second [Delete] answers false. *)
Theorem Delete_contract (db : Database) (key : string) :
  (Delete db key).1 = Exists db key /\
  Exists (Delete db key).2 key = false /\
  (forall key', key' <> key -> (Delete db key).2 !! key' = db !! key') /\
  Size (Delete db key).2 = Size db - (if Exists db key then 1 else 0) /\
  (Delete (Delete db key).2 key).1 = false.
Proof.
  unfold Delete, Exists, Size. destruct (db !! key) as [v|] eqn:Hk; simpl.
  - rewrite lookup_delete_eq. repeat split; try done.
    + intros key' Hne. by apply lookup_delete_ne.
    + assert (Hin : is_Some (db !! key)) by (by exists v).
      rewrite (map_size_delete_Some key db Hin).
      assert (size db <> 0%nat) by (apply map_size_ne_0_lookup; eauto).
      lia.
  - rewrite Hk. repeat split; try done. lia.
Qed.

(** After [FlushAll] the store is empty: [Size] is 0, no key exists or is
    found, and [Keys] is empty for every pattern. *)
Lemma FlushAll_empties (db : Database) :
  (FlushAll db).1 = None /\
  Size (FlushAll db).2 = 0 /\
  (forall key, Exists (FlushAll db).2 key = false) /\
  (forall now key, Get (FlushAll db).2 now key = (None, ∅)) /\
  (forall pattern, Keys (FlushAll db).2 pattern = []).
Proof.
  unfold FlushAll. simpl. repeat split.
Qed.

Lemma dom_Set db now key v : dom (Set_ db now key v).2 = {[key]} ∪ dom db.
Proof. unfold Set_. simpl. apply dom_insert_L. Qed.

Lemma dom_set_all writes : forall db,
  dom (set_all db writes) = dom db ∪ list_to_set (writes.*1.*2).
Proof.
  induction writes as [|w writes IH]; intros db.
  - unfold set_all. simpl. by rewrite union_empty_r_L.
  - change (set_all db (w :: writes))
      with (set_all (Set_ db w.1.1 w.1.2 w.2).2 writes).
    rewrite IH, dom_Set, !fmap_cons, list_to_set_cons.
    by rewrite (union_comm_L {[w.1.2]} (dom db)), union_assoc_L.
Qed.

(** X4. [Size] counts keys, not writes: after any sequence of [Set] calls on
    a new database, [Size] is the number of distinct keys written; a [Set]
    of a key already present leaves [Size] unchanged and a [Set] of a new
    key adds one. *)
Theorem Size_counts_distinct_keys (db : Database)
  (writes : list (Z * string * TriffValue)) (now : Z) (key : string)
  (v : TriffValue) :
  Size (set_all NewDatabase writes)
    = Z.of_nat (size (list_to_set (C:=gset string) (writes.*1.*2))) /\
  (NoDup (writes.*1.*2) ->
     Size (set_all NewDatabase writes) = Z.of_nat (length writes)) /\
  Size (Set_ db now key v).2 = Size db + (if Exists db key then 0 else 1).
Proof.
  assert (Hsize : Size (set_all NewDatabase writes)
            = Z.of_nat (size (list_to_set (C:=gset string) (writes.*1.*2)))).
  { unfold Size. rewrite <- size_dom, dom_set_all.
    unfold NewDatabase. by rewrite dom_empty_L, union_empty_l_L. }
  split; [done|]. split.
  - intros Hnd. rewrite Hsize. f_equal.
    rewrite size_list_to_set by done. by rewrite !length_fmap.
  - unfold Size, Set_, Exists. simpl. destruct (db !! key) as [old|] eqn:Hk.
    + rewrite map_size_insert_Some by eauto. lia.
    + rewrite map_size_insert_None by done. lia.
Qed.

(** ** SetTTL *)

Lemma SetTTL_absent db now key seconds :
  db !! key = None -> SetTTL db now key seconds = (false, db).
Proof. intros Hk. unfold SetTTL. by rewrite Hk. Qed.

Lemma GetTTL_with_expiry db now key v :
  db !! key = Some v -> TTL v <> 0 ->
  GetTTL db now key = if remaining now v <=? 0 then -2 else remaining now v.
Proof.
  intros Hk Hnz. unfold GetTTL. rewrite Hk.
  apply Z.eqb_neq in Hnz. by rewrite Hnz.
Qed.

(** X5. [SetTTL] on a key of the map (expired or not) with a positive number
    of seconds answers true and only replaces the expiry, by [now + seconds].
    From then on [GetTTL] counts the seconds down and [Get] finds the value
    until the expiry; at the second of the expiry itself [GetTTL] already
    answers -2 while [Get] still finds the value; after it [Get] finds
    nothing and removes the key. *)
Theorem SetTTL_then_reads
  (db : Database) (now : Z) (key : string) (seconds : Z) (v : TriffValue) :
  db !! key = Some v -> 0 <= now -> 0 < seconds ->
  int64.InRange (now + seconds) ->
  let db' := (SetTTL db now key seconds).2 in
  let v' := mkTriffValue (Type_ v) (Data v) (now + seconds)
                         (CreatedAt v) (UpdatedAt v) in
  (SetTTL db now key seconds).1 = true /\
  db' !! key = Some v' /\
  (forall key', key' <> key -> db' !! key' = db !! key') /\
  (forall now', now <= now' < now + seconds ->
     GetTTL db' now' key = now + seconds - now' /\
     Get db' now' key = (Some v', db')) /\
  (GetTTL db' (now + seconds) key = -2 /\
   Get db' (now + seconds) key = (Some v', db')) /\
  (forall now', now + seconds < now' ->
     (Get db' now' key).1 = None /\ (Get db' now' key).2 !! key = None).
Proof.
  intros Hk Hnow Hsec Hrange db' v'.
  assert (Hadd : int64.add now seconds = now + seconds) by (by apply wrap_id).
  assert (Hdb' : db' = <[key := v']> db).
  { subst db' v'. unfold SetTTL. rewrite Hk. simpl. by rewrite Hadd. }
  assert (Hk' : db' !! key = Some v') by (rewrite Hdb'; apply lookup_insert_eq).
  assert (Hrem : forall now', now <= now' <= now + seconds ->
            remaining now' v' = now + seconds - now').
  { intros now' Hle. apply remaining_exact. simpl.
    unfold int64.InRange, int64.min, int64.max in *. lia. }
  assert (Hfound : forall now', now' <= now + seconds ->
            Get db' now' key = (Some v', db')).
  { intros now' Hle. apply Get_found; [done|]. unfold expired. simpl. lia. }
  split; [unfold SetTTL; by rewrite Hk|]. split; [done|]. split.
  { intros key' Hne. rewrite Hdb'. by apply lookup_insert_ne. }
  split; [|split].
  - intros now' Hle. split; [|apply Hfound; lia].
    rewrite (GetTTL_with_expiry _ _ _ v') by (done || (simpl; lia)).
    rewrite Hrem by lia.
    destruct (now + seconds - now' <=? 0) eqn:E; [apply Z.leb_le in E; lia|done].
  - split; [|apply Hfound; lia].
    rewrite (GetTTL_with_expiry _ _ _ v') by (done || (simpl; lia)).
    rewrite Hrem by lia.
    destruct (now + seconds - (now + seconds) <=? 0) eqn:E;
      [done|apply Z.leb_gt in E; lia].
  - intros now' Hlt.
    assert (Hexp : expired now' v') by (unfold expired; simpl; lia).
    rewrite (Get_evicts _ _ _ _ Hk' Hexp). simpl.
    split; [done|apply lookup_delete_eq].
Qed.

Lemma SetTTL_then_reads_witness :
  GetTTL (SetTTL counter_db 100 "counter" 60).2 130 "counter" = 30 /\
  GetTTL (SetTTL counter_db 100 "counter" 60).2 160 "counter" = -2 /\
  (Get (SetTTL counter_db 100 "counter" 60).2 161 "counter").1 = None.
Proof.
  destruct (SetTTL_then_reads counter_db 100 "counter" 60
              (mkTriffValue STRING (VString "10") 0 0 0))
    as (_ & _ & _ & Hcount & [Hedge _] & Hafter).
  - reflexivity.
  - lia.
  - lia.
  - unfold int64.InRange, int64.min, int64.max. lia.
  - split; [|split].
    + apply (Hcount 130). lia.
    + apply Hedge.
    + apply (Hafter 161). lia.
Defined.

(** ** The string commands *)

Lemma string_length_append s t :
  String.length (s +:+ t) = (String.length s + String.length t)%nat.
Proof.
  induction s as [|c s IH]; [done|].
  change (String c s +:+ t) with (String c (s +:+ t)).
  cbn [String.length]. by rewrite IH.
Qed.

Lemma string_append_empty s : s +:+ "" = s.
Proof.
  induction s as [|c s IH]; [done|].
  change (String c s +:+ "") with (String c (s +:+ "")). by rewrite IH.
Qed.

Lemma command_Set_reply db now stamp key value ttl :
  (commands.Set_ db now stamp key value ttl).1 = ok_reply.
Proof. unfold commands.Set_. by destruct (0 <? ttl). Qed.

Lemma command_Get_live db now key v s :
  live db now key v -> Type_ v = STRING -> Data v = VString s ->
  commands.Get db now key = (string_reply s, db).
Proof.
  intros Hlive Hty Hdata. unfold commands.Get.
  rewrite (Get_live _ _ _ _ Hlive).
  destruct (decide (Type_ v <> STRING)); [done|]. by rewrite Hdata.
Qed.

(** X6. [Set key value ttl] always answers OK.  With [ttl <= 0] the value is
    read back by [Get] at every instant (a negative ttl does not expire
    either); with [ttl > 0] it is read back up to and including second
    [now + ttl], and from the next second on [Get] answers not-found and
    removes the key. *)
Theorem Set_then_Get
  (db : Database) (now stamp : Z) (key value : string) (ttl : Z) :
  0 <= now -> int64.InRange (now + ttl) ->
  let db1 := (commands.Set_ db now stamp key value ttl).2 in
  (commands.Set_ db now stamp key value ttl).1 = ok_reply /\
  (ttl <= 0 -> forall now',
     commands.Get db1 now' key = (string_reply value, db1)) /\
  (0 < ttl -> forall now', now' <= now + ttl ->
     commands.Get db1 now' key = (string_reply value, db1)) /\
  (0 < ttl -> forall now', now + ttl < now' ->
     commands.Get db1 now' key = (not_found_reply, delete key db1)).
Proof.
  intros Hnow Hrange db1.
  pose proof (command_Set_stores db now stamp key value ttl) as Hdb1.
  fold db1 in Hdb1.
  destruct (Set_stores db stamp key
              (mkTriffValue STRING (VString value)
                 (if 0 <? ttl then int64.add now ttl else ttl)
                 zeroTime zeroTime))
    as (v & Hk & Hty & Hdata & Httl & _).
  rewrite <- Hdb1 in Hk. simpl in Hty, Hdata, Httl.
  split; [apply command_Set_reply|]. split; [|split].
  - intros Hle now'. apply (command_Get_live _ _ _ v); try done.
    split; [done|]. unfold expired. rewrite Httl.
    assert ((0 <? ttl) = false) as -> by (apply Z.ltb_ge; lia). lia.
  - intros Hpos now' Hle. apply (command_Get_live _ _ _ v); try done.
    split; [done|]. unfold expired. rewrite Httl.
    assert ((0 <? ttl) = true) as -> by (apply Z.ltb_lt; lia).
    unfold int64.add. rewrite wrap_id by done. lia.
  - intros Hpos now' Hlt. unfold commands.Get.
    rewrite (Get_evicts _ _ _ v); [done|done|].
    unfold expired. rewrite Httl.
    assert ((0 <? ttl) = true) as -> by (apply Z.ltb_lt; lia).
    unfold int64.add. rewrite wrap_id by done. lia.
Qed.

Lemma Set_then_Get_witness :
  commands.Get (commands.Set_ NewDatabase 40 40 "session" "active" 60).2
    100 "session"
  = (string_reply "active",
     (commands.Set_ NewDatabase 40 40 "session" "active" 60).2) /\
  (commands.Get (commands.Set_ NewDatabase 40 40 "session" "active" 60).2
     101 "session").1 = not_found_reply.
Proof.
  destruct (Set_then_Get NewDatabase 40 40 "session" "active" 60)
    as (_ & _ & Hbefore & Hafter).
  - lia.
  - unfold int64.InRange, int64.min, int64.max. lia.
  - split.
    + apply Hbefore; lia.
    + rewrite Hafter by lia. reflexivity.
Defined.

Lemma Append_store db stamp key s :
  holds_string
    (Set_ db stamp key (mkTriffValue STRING (VString s) 0 zeroTime zeroTime)).2
    key s.
Proof.
  destruct (Set_fresh db stamp key (VString s)) as (v & Hk & Hty & Hd & Httl).
  by exists v.
Qed.

Lemma Append_on_string db now stamp key value v s :
  live db now key v -> Type_ v = STRING -> Data v = VString s ->
  exists db',
    commands.Append db now stamp key value
      = Returns (length_reply (String.length s + String.length value), db') /\
    holds_string db' key (s +:+ value) /\ same_elsewhere db db' key.
Proof.
  intros Hlive Hty Hdata. unfold commands.Append.
  rewrite (Get_live _ _ _ _ Hlive).
  destruct (decide (Type_ v = STRING)) as [_|Hne]; [|done].
  rewrite Hdata.
  exists (Set_ db stamp key
            (mkTriffValue STRING (VString (s +:+ value)) 0 zeroTime zeroTime)).2.
  split; [|split].
  - cbn -[Set_]. unfold length_reply. by rewrite string_length_append.
  - apply Append_store.
  - intros key' Hne. by rewrite Set_other.
Qed.

Lemma Append_on_absent db now stamp key value :
  absent db now key ->
  exists db',
    commands.Append db now stamp key value
      = Returns (length_reply (String.length value), db') /\
    holds_string db' key value /\ same_elsewhere db db' key.
Proof.
  intros Habs. destruct (Get_of_absent _ _ _ Habs) as (db0 & HGet & _ & Hsame).
  unfold commands.Append. rewrite HGet.
  exists (Set_ db0 stamp key
            (mkTriffValue STRING (VString value) 0 zeroTime zeroTime)).2.
  split; [done|]. split; [apply Append_store|].
  intros key' Hne. rewrite Set_other by done. by apply Hsame.
Qed.

Lemma Append_on_other_type db now stamp key value v :
  live db now key v -> Type_ v <> STRING ->
  exists db',
    commands.Append db now stamp key value
      = Returns (length_reply (String.length value), db') /\
    holds_string db' key value /\ same_elsewhere db db' key.
Proof.
  intros Hlive Hty. unfold commands.Append.
  rewrite (Get_live _ _ _ _ Hlive).
  destruct (decide (Type_ v = STRING)) as [Heq|_]; [done|].
  exists (Set_ db stamp key
            (mkTriffValue STRING (VString value) 0 zeroTime zeroTime)).2.
  split; [done|]. split; [apply Append_store|].
  intros key' Hne. by rewrite Set_other.
Qed.

(** X7. [Append] on a live STRING value stores the concatenation and answers
    the sum of the two lengths; appending the empty string keeps the string.
    On an absent key it stores the appended value alone, and on a live value
    of another type it silently replaces that value by the appended string,
    answering its length.  Every other key is untouched. *)
Theorem Append_contract
  (db : Database) (now stamp : Z) (key value : string) :
  (forall v s,
     live db now key v -> Type_ v = STRING -> Data v = VString s ->
     exists db',
       commands.Append db now stamp key value
         = Returns (length_reply (String.length s + String.length value), db')
       /\ holds_string db' key (s +:+ value) /\ same_elsewhere db db' key) /\
  (forall v s,
     live db now key v -> Type_ v = STRING -> Data v = VString s ->
     exists db',
       commands.Append db now stamp key ""
         = Returns (length_reply (String.length s), db')
       /\ holds_string db' key s) /\
  (absent db now key ->
     exists db',
       commands.Append db now stamp key value
         = Returns (length_reply (String.length value), db')
       /\ holds_string db' key value /\ same_elsewhere db db' key) /\
  (forall v,
     live db now key v -> Type_ v <> STRING ->
     exists db',
       commands.Append db now stamp key value
         = Returns (length_reply (String.length value), db')
       /\ holds_string db' key value /\ same_elsewhere db db' key).
Proof.
  split; [intros v s; apply Append_on_string|].
  split; [|split; [apply Append_on_absent|intros v; apply Append_on_other_type]].
  intros v s Hlive Hty Hdata.
  destruct (Append_on_string db now stamp key "" v s Hlive Hty Hdata)
    as (db' & Hrun & Hholds & _).
  exists db'. rewrite string_append_empty in Hholds.
  by rewrite Nat.add_0_r in Hrun.
Qed.

Lemma Strlen_on_string db now key v s :
  live db now key v -> Type_ v = STRING -> Data v = VString s ->
  commands.Strlen db now key = Returns (length_reply (String.length s), db).
Proof.
  intros Hlive Hty Hdata. unfold commands.Strlen.
  rewrite (Get_live _ _ _ _ Hlive).
  destruct (decide (Type_ v <> STRING)); [done|]. by rewrite Hdata.
Qed.

(** X8. [Strlen] answers 0 for an absent key, the byte length for a live
    STRING value and a failure for a live value of another type; it changes
    nothing except for removing a key it finds expired.  Right after an
    [Append] it answers, at every instant, what [Append] answered. *)
Theorem Strlen_contract (db : Database) (now : Z) (key : string) :
  (absent db now key ->
     exists db0, commands.Strlen db now key = Returns (length_reply 0, db0) /\
                 db0 !! key = None /\ same_elsewhere db db0 key) /\
  (forall v s,
     live db now key v -> Type_ v = STRING -> Data v = VString s ->
     commands.Strlen db now key
       = Returns (length_reply (String.length s), db)) /\
  (forall v,
     live db now key v -> Type_ v <> STRING ->
     commands.Strlen db now key = Returns (commands.not_a_string, db)) /\
  (forall stamp value r db' now',
     commands.Append db now stamp key value = Returns (r, db') ->
     commands.Strlen db' now' key = Returns (r, db')).
Proof.
  split; [|split; [|split]].
  - intros Habs.
    destruct (Get_of_absent _ _ _ Habs) as (db0 & HGet & Hk0 & Hsame).
    exists db0. unfold commands.Strlen. by rewrite HGet.
  - intros v s. apply Strlen_on_string.
  - intros v Hlive Hty. unfold commands.Strlen.
    rewrite (Get_live _ _ _ _ Hlive).
    by destruct (decide (Type_ v <> STRING)).
  - intros stamp value r db' now' Hrun.
    destruct (Append_returns _ _ _ _ _ _ _ Hrun) as (nv & -> & ->).
    destruct (Append_store (Get db now key).2 stamp key nv)
      as (w & Hk & Hty & Hdata & Httl).
    apply (Strlen_on_string _ _ _ w); try done.
    by apply live_forever.
Qed.

(** * The hash, list and set stores *)

Import hash_commands.

(** ** HashStore *)

Lemma HSet_lookup hs key field value :
  HSet hs key field value !! key
  = Some (<[field := value]> (default ∅ (hs !! key))).
Proof.
  unfold HSet. rewrite lookup_insert_eq. destruct (hs !! key) as [fields|] eqn:Hk.
  - by rewrite Hk.
  - by rewrite lookup_insert_eq.
Qed.

Lemma HSet_lookup_ne hs key field value key' :
  key' <> key -> HSet hs key field value !! key' = hs !! key'.
Proof.
  intros Hne. unfold HSet. rewrite lookup_insert_ne by done.
  destruct (hs !! key); [done|]. by rewrite lookup_insert_ne.
Qed.

(** X9. After [HSet key field value], [HGet key field] answers [value] with
    no error; every other key answers as before, and another field of the
    same key keeps its value (a field that was missing is still an error). *)
Theorem HSet_then_HGet (hs : HashStore) (key field value : string) :
  HGet (HSet hs key field value) key field = (value, None) /\
  (forall key' field', key' <> key ->
     HGet (HSet hs key field value) key' field' = HGet hs key' field') /\
  (forall field', field' <> field ->
     (HGet (HSet hs key field value) key field').1 = (HGet hs key field').1 /\
     ((HGet (HSet hs key field value) key field').2 = None
      <-> (HGet hs key field').2 = None)).
Proof.
  split; [|split].
  - unfold HGet. rewrite HSet_lookup. by rewrite lookup_insert_eq.
  - intros key' field' Hne. unfold HGet. by rewrite HSet_lookup_ne.
  - intros field' Hne. unfold HGet. rewrite HSet_lookup.
    rewrite lookup_insert_ne by done.
    destruct (hs !! key) as [fields|]; simpl.
    + by destruct (fields !! field').
    + rewrite lookup_empty. split; [done|]. split; discriminate.
Qed.

Lemma no_empty_hash_HSet hs key field value :
  no_empty_hash hs -> no_empty_hash (HSet hs key field value).
Proof.
  intros Hinv key' fields Hk. destruct (decide (key' = key)) as [->|Hne].
  - rewrite HSet_lookup in Hk. injection Hk as <-. apply insert_non_empty.
  - rewrite HSet_lookup_ne in Hk by done. by apply (Hinv key').
Qed.

Lemma no_empty_hash_HDel hs key field :
  no_empty_hash hs -> no_empty_hash (HDel hs key field).2.
Proof.
  intros Hinv key' fields. unfold HDel.
  destruct (hs !! key) as [old|] eqn:Hk; simpl; [|apply Hinv].
  destruct (decide (size (delete field old) = 0%nat)) as [Hz|Hnz]; simpl.
  - intros Hk'. apply lookup_delete_Some in Hk' as [Hne Hk'].
    rewrite lookup_insert_ne in Hk' by done. by apply (Hinv key').
  - destruct (decide (key' = key)) as [->|Hne].
    + rewrite lookup_insert_eq. intros [= <-].
      by apply map_size_non_empty_iff.
    + rewrite lookup_insert_ne by done. apply Hinv.
Qed.

(** X10. [HDel] fails only when the key is missing (the store is then left
    alone); on a present key it answers nil even when the field is missing.
    Afterwards [HGet] of that field fails, the other fields of the key and
    every other key answer as before, provided the key still has a field;
    when the deleted field was the last one the key itself is removed. *)
Theorem HDel_contract (hs : HashStore) (key field : string) :
  (hs !! key = None -> HDel hs key field = (Some KeyNotFound, hs)) /\
  (forall fields, hs !! key = Some fields ->
     (HDel hs key field).1 = None /\
     (HGet (HDel hs key field).2 key field).2 <> None /\
     (forall key', key' <> key ->
        (HDel hs key field).2 !! key' = hs !! key') /\
     (delete field fields <> ∅ ->
        (HDel hs key field).2 !! key = Some (delete field fields)) /\
     (delete field fields = ∅ -> (HDel hs key field).2 !! key = None)).
Proof.
  split.
  - intros Hk. unfold HDel. by rewrite Hk.
  - intros fields Hk. unfold HDel, HGet. rewrite Hk.
    destruct (decide (size (delete field fields) = 0%nat)) as [Hz|Hnz]; simpl.
    + apply map_size_empty_iff in Hz.
      rewrite lookup_delete_eq. repeat split; try done.
      intros key' Hne. rewrite lookup_delete_ne by done.
      by rewrite lookup_insert_ne.
    + apply map_size_non_empty_iff in Hnz.
      rewrite lookup_insert_eq, lookup_delete_eq. repeat split; try done.
      intros key' Hne. by rewrite lookup_insert_ne.
Qed.

(** X11. Starting from [NewHashStore], [HSet] and [HDel] never leave a key
    with an empty hash, so [HGetAll] never answers an empty map.  On such a
    store, setting a field that the key does not have and deleting it again
    restores the store exactly. *)
Theorem hash_store_invariant (hs : HashStore) (key field value : string) :
  no_empty_hash NewHashStore /\
  (no_empty_hash hs -> no_empty_hash (HSet hs key field value)) /\
  (no_empty_hash hs -> no_empty_hash (HDel hs key field).2) /\
  (no_empty_hash hs -> forall fields,
     HGetAll hs key = (Some fields, None) -> fields <> ∅) /\
  (no_empty_hash hs -> (HGet hs key field).2 <> None ->
     HDel (HSet hs key field value) key field = (None, hs)).
Proof.
  split; [|split; [|split; [|split]]].
  - intros k fields Hk. unfold NewHashStore in Hk. by rewrite lookup_empty in Hk.
  - apply no_empty_hash_HSet.
  - apply no_empty_hash_HDel.
  - intros Hinv fields. unfold HGetAll.
    destruct (hs !! key) as [f|] eqn:Hk; [|done].
    intros [= <-]. by apply (Hinv key).
  - intros Hinv Hmiss. unfold HDel. rewrite HSet_lookup.
    unfold HGet in Hmiss. destruct (hs !! key) as [fields|] eqn:Hk; simpl.
    + destruct (fields !! field) as [x|] eqn:Hf; [done|].
      rewrite delete_insert_id by done.
      destruct (decide (size fields = 0%nat)) as [Hz|Hnz].
      * apply map_size_empty_iff in Hz. by destruct (Hinv key fields Hk).
      * f_equal.
        apply map_eq. intros k. destruct (decide (k = key)) as [->|Hne].
        -- by rewrite lookup_insert_eq.
        -- rewrite lookup_insert_ne by done. by rewrite HSet_lookup_ne.
    + rewrite delete_insert_id by apply lookup_empty.
      destruct (decide (size (∅ : gmap string string) = 0%nat)) as [_|Hnz];
        [|by rewrite map_size_empty in Hnz].
      f_equal. apply map_eq. intros k. destruct (decide (k = key)) as [->|Hne].
      * by rewrite lookup_delete_eq.
      * rewrite lookup_delete_ne, lookup_insert_ne by done.
        by rewrite HSet_lookup_ne.
Qed.

(** ** ListStore *)

Import list_commands.

Lemma RPush_lookup ls key value :
  RPush ls key value !! key = Some (default [] (ls !! key) ++ [value])%list.
Proof. unfold RPush. apply lookup_insert_eq. Qed.

Lemma LPush_lookup ls key value :
  LPush ls key value !! key = Some (value :: default [] (ls !! key)).
Proof. unfold LPush. apply lookup_insert_eq. Qed.

Lemma rpush_all_lookup xs : forall ls key l,
  ls !! key = Some l -> rpush_all ls key xs !! key = Some (l ++ xs)%list.
Proof.
  induction xs as [|x xs IH]; intros ls key l Hk.
  - unfold rpush_all. simpl. by rewrite app_nil_r.
  - change (rpush_all ls key (x :: xs))
      with (rpush_all (RPush ls key x) key xs).
    rewrite (IH _ _ (l ++ [x])%list).
    + by rewrite <- app_assoc.
    + rewrite RPush_lookup. by rewrite Hk.
Qed.

Lemma lpush_all_lookup xs : forall ls key l,
  ls !! key = Some l -> lpush_all ls key xs !! key = Some (reverse xs ++ l)%list.
Proof.
  induction xs as [|x xs IH]; intros ls key l Hk.
  - unfold lpush_all. by simpl.
  - change (lpush_all ls key (x :: xs))
      with (lpush_all (LPush ls key x) key xs).
    rewrite (IH _ _ (x :: l)).
    + rewrite reverse_cons. by rewrite <- app_assoc.
    + rewrite LPush_lookup. by rewrite Hk.
Qed.

Lemma push_all_other xs : forall ls key key',
  key' <> key ->
  rpush_all ls key xs !! key' = ls !! key' /\
  lpush_all ls key xs !! key' = ls !! key'.
Proof.
  induction xs as [|x xs IH]; intros ls key key' Hne; [done|].
  change (rpush_all ls key (x :: xs))
    with (rpush_all (RPush ls key x) key xs).
  change (lpush_all ls key (x :: xs))
    with (lpush_all (LPush ls key x) key xs).
  destruct (IH (RPush ls key x) key key' Hne) as [-> _].
  destruct (IH (LPush ls key x) key key' Hne) as [_ ->].
  unfold RPush, LPush. by rewrite !lookup_insert_ne.
Qed.

Lemma lpop_many_present n : forall ls key l,
  ls !! key = Some l ->
  lpop_many n ls key = (take n l, <[key := drop n l]> ls).
Proof.
  induction n as [|n IH]; intros ls key l Hk.
  - simpl. by rewrite insert_id.
  - simpl. unfold LPop. rewrite Hk. destruct l as [|x l].
    + simpl. by rewrite insert_id.
    + rewrite (IH _ _ l) by apply lookup_insert_eq.
      simpl. by rewrite insert_insert_eq.
Qed.

Lemma lpop_many_absent n ls key :
  ls !! key = None -> lpop_many n ls key = ([], ls).
Proof. intros Hk. destruct n; [done|]. simpl. unfold LPop. by rewrite Hk. Qed.

Lemma rpop_many_present n : forall ls key l,
  ls !! key = Some l ->
  rpop_many n ls key
  = (take n (reverse l), <[key := take (length l - n) l]> ls).
Proof.
  induction n as [|n IH]; intros ls key l Hk.
  - simpl. rewrite Nat.sub_0_r, firstn_all. by rewrite insert_id.
  - simpl. unfold RPop. rewrite Hk.
    destruct (last l) as [x|] eqn:Hlast.
    + apply last_Some in Hlast as [l' ->].
      rewrite length_app. simpl.
      replace (length l' + 1 - 1)%nat with (length l') by lia.
      rewrite take_app_length.
      rewrite (IH _ _ l') by apply lookup_insert_eq.
      rewrite reverse_snoc. simpl. rewrite insert_insert_eq.
      replace (length l' + 1 - S n)%nat with (length l' - n)%nat by lia.
      rewrite (take_app_le l' [x]) by lia. done.
    + apply last_None in Hlast as ->. simpl. by rewrite insert_id.
Qed.

Lemma rpop_many_absent n ls key :
  ls !! key = None -> rpop_many n ls key = ([], ls).
Proof. intros Hk. destruct n; [done|]. simpl. unfold RPop. by rewrite Hk. Qed.

(** The values that repeated pops return do not depend on whether the key
    was missing or held the empty list. *)
Lemma pops_after_pushes xs ls key n :
  (lpop_many n (rpush_all ls key xs) key).1
    = take n (default [] (ls !! key) ++ xs)%list /\
  (rpop_many n (rpush_all ls key xs) key).1
    = take n (reverse (default [] (ls !! key) ++ xs))%list /\
  (lpop_many n (lpush_all ls key xs) key).1
    = take n (reverse xs ++ default [] (ls !! key))%list.
Proof.
  destruct (ls !! key) as [l|] eqn:Hk; simpl.
  - rewrite (lpop_many_present _ _ _ _ (rpush_all_lookup xs _ _ _ Hk)).
    rewrite (rpop_many_present _ _ _ _ (rpush_all_lookup xs _ _ _ Hk)).
    by rewrite (lpop_many_present _ _ _ _ (lpush_all_lookup xs _ _ _ Hk)).
  - destruct xs as [|x xs].
    + unfold rpush_all, lpush_all. simpl.
      rewrite lpop_many_absent, rpop_many_absent by done.
      simpl. by rewrite reverse_nil, !take_nil.
    + change (rpush_all ls key (x :: xs))
        with (rpush_all (RPush ls key x) key xs).
      change (lpush_all ls key (x :: xs))
        with (lpush_all (LPush ls key x) key xs).
      assert (HR : RPush ls key x !! key = Some [x])
        by (rewrite RPush_lookup; by rewrite Hk).
      assert (HL : LPush ls key x !! key = Some [x])
        by (rewrite LPush_lookup; by rewrite Hk).
      rewrite (lpop_many_present _ _ _ _ (rpush_all_lookup xs _ _ _ HR)).
      rewrite (rpop_many_present _ _ _ _ (rpush_all_lookup xs _ _ _ HR)).
      rewrite (lpop_many_present _ _ _ _ (lpush_all_lookup xs _ _ _ HL)).
      simpl. by rewrite !reverse_cons, app_nil_r.
Qed.

(** X12. The list store is a double-ended queue.  After [RPush]ing [xs] in
    order onto a key, repeated [LPop] returns the old contents followed by
    [xs] in that order (first in, first out) and repeated [RPop] returns
    them in reverse; after [LPush]ing [xs], repeated [LPop] returns [xs]
    last-pushed first, then the old contents.  Pushes under one key leave
    every other key alone. *)
Theorem list_store_queue
  (ls : ListStore) (key : string) (xs : list string) (n : nat) :
  (lpop_many n (rpush_all ls key xs) key).1
    = take n (default [] (ls !! key) ++ xs)%list /\
  (rpop_many n (rpush_all ls key xs) key).1
    = take n (reverse (default [] (ls !! key) ++ xs))%list /\
  (lpop_many n (lpush_all ls key xs) key).1
    = take n (reverse xs ++ default [] (ls !! key))%list /\
  (forall key', key' <> key ->
     rpush_all ls key xs !! key' = ls !! key' /\
     lpush_all ls key xs !! key' = ls !! key').
Proof.
  destruct (pops_after_pushes xs ls key n) as (H1 & H2 & H3).
  repeat split; try done; by apply push_all_other.
Qed.

(** X13. [LPop] and [RPop] fail, leaving the store alone, exactly when the
    key is missing or holds the empty list.  A push followed by the pop at
    the same end returns the pushed value and restores the list, but a key
    that did not exist is left behind holding the empty list: [LRange] then
    answers the empty list with no error instead of key-not-found. *)
Theorem pop_contract (ls : ListStore) (key value : string) :
  ((LPop ls key).1.2 <> None <-> default [] (ls !! key) = []) /\
  ((RPop ls key).1.2 <> None <-> default [] (ls !! key) = []) /\
  (default [] (ls !! key) = [] ->
     LPop ls key = ("", Some EmptyOrNotFound, ls) /\
     RPop ls key = ("", Some EmptyOrNotFound, ls)) /\
  LPop (LPush ls key value) key
    = (value, None, <[key := default [] (ls !! key)]> ls) /\
  RPop (RPush ls key value) key
    = (value, None, <[key := default [] (ls !! key)]> ls) /\
  (ls !! key = None ->
     LRange ls key = (None, Some KeyNotFound) /\
     LRange (LPop (LPush ls key value) key).2 key = (Some [], None)).
Proof.
  assert (HLP : LPop (LPush ls key value) key
                = (value, None, <[key := default [] (ls !! key)]> ls)).
  { unfold LPop. rewrite LPush_lookup. unfold LPush.
    by rewrite insert_insert_eq. }
  assert (HRP : RPop (RPush ls key value) key
                = (value, None, <[key := default [] (ls !! key)]> ls)).
  { unfold RPop. rewrite RPush_lookup, last_snoc, length_app. simpl.
    replace (length (default [] (ls !! key)) + 1 - 1)%nat
      with (length (default [] (ls !! key))) by lia.
    rewrite take_app_length. unfold RPush. by rewrite insert_insert_eq. }
  split; [|split; [|split; [|split; [|split]]]]; try done.
  - unfold LPop. destruct (ls !! key) as [[|x l]|]; simpl; split; done.
  - unfold RPop. destruct (ls !! key) as [l|]; simpl; [|split; done].
    destruct (last l) as [x|] eqn:Hlast; simpl.
    + apply last_Some in Hlast as [l' ->]. split; [done|].
      intros Hnil. by destruct l'.
    + apply last_None in Hlast as ->. split; done.
  - unfold LPop, RPop. destruct (ls !! key) as [[|x l]|]; simpl; try done.
  - intros Hk. rewrite HLP. unfold LRange. rewrite Hk. simpl.
    by rewrite lookup_insert_eq.
Qed.

(** ** SetStore *)

Import set_commands.

Lemma SAdd_lookup ss key value :
  SAdd ss key value !! key = Some ({[value]} ∪ default ∅ (ss !! key)).
Proof.
  unfold SAdd. rewrite lookup_insert_eq. destruct (ss !! key) eqn:Hk.
  - by rewrite Hk.
  - by rewrite lookup_insert_eq.
Qed.

Lemma SAdd_lookup_ne ss key value key' :
  key' <> key -> SAdd ss key value !! key' = ss !! key'.
Proof.
  intros Hne. unfold SAdd. rewrite lookup_insert_ne by done.
  destruct (ss !! key); [done|]. by rewrite lookup_insert_ne.
Qed.

Lemma SExists_true ss key value :
  SExists ss key value = true <-> exists set, ss !! key = Some set /\ value ∈ set.
Proof.
  unfold SExists. destruct (ss !! key) as [set|].
  - rewrite bool_decide_eq_true. split; [eauto|]. by intros (? & [= <-] & ?).
  - split; [done|]. by intros (? & ? & ?).
Qed.

(** X14. After [SAdd key value] the members are the old ones and [value]:
    [SExists] answers true for exactly those, under every key.  Adding a
    member twice is the same as adding it once, and the order of two
    additions does not matter. *)
Theorem SAdd_membership (ss : SetStore) (key value : string) :
  (forall key' value',
     SExists (SAdd ss key value) key' value' = true
     <-> (key' = key /\ value' = value) \/ SExists ss key' value' = true) /\
  SAdd (SAdd ss key value) key value = SAdd ss key value /\
  (forall value',
     SAdd (SAdd ss key value) key value' = SAdd (SAdd ss key value') key value).
Proof.
  split; [|split].
  - intros key' value'. rewrite !SExists_true.
    destruct (decide (key' = key)) as [->|Hne].
    + rewrite SAdd_lookup. split.
      * intros (set & [= <-] & Hin). apply elem_of_union in Hin as [Hin|Hin].
        -- left. split; [done|]. by apply elem_of_singleton in Hin.
        -- right. destruct (ss !! key) as [old|]; [by exists old|].
           simpl in Hin. by apply not_elem_of_empty in Hin.
      * intros [[_ ->]|(set & Hk & Hin)]; eexists; (split; [done|]).
        -- apply elem_of_union_l. by apply elem_of_singleton.
        -- apply elem_of_union_r. by rewrite Hk.
    + rewrite SAdd_lookup_ne by done. split; [by right|].
      by intros [[? _]|?].
  - apply map_eq. intros k. destruct (decide (k = key)) as [->|Hne].
    + rewrite !SAdd_lookup. simpl. f_equal.
      by rewrite union_assoc_L, union_idemp_L.
    + by rewrite !SAdd_lookup_ne.
  - intros value'. apply map_eq. intros k.
    destruct (decide (k = key)) as [->|Hne].
    + rewrite !SAdd_lookup. simpl. f_equal.
      by rewrite !union_assoc_L, (union_comm_L {[value']} {[value]}).
    + by rewrite !SAdd_lookup_ne.
Qed.

(** X15. [SRem] succeeds exactly when [SExists] answers true.  On success
    the value is no longer a member and every other membership, under every
    key, is as before; on failure the store is left alone.  The key itself
    is never removed: after its last member is gone [SMembers] answers the
    empty list with no error. *)
Theorem SRem_contract (ss : SetStore) (key value : string) :
  ((SRem ss key value).1 = None <-> SExists ss key value = true) /\
  (SExists ss key value = false ->
     SRem ss key value = (Some ValueNotFound, ss)) /\
  (forall key' value',
     SExists (SRem ss key value).2 key' value' = true
     <-> SExists ss key' value' = true /\ ~ (key' = key /\ value' = value)) /\
  (is_Some (ss !! key) <-> is_Some ((SRem ss key value).2 !! key)) /\
  (ss !! key = Some {[value]} ->
     SMembers (SRem ss key value).2 key = (Some [], None)).
Proof.
  unfold SRem. destruct (ss !! key) as [set|] eqn:Hk.
  - destruct (decide (value ∈ set)) as [Hin|Hnin]; simpl.
    + assert (Hex : SExists ss key value = true)
        by (apply SExists_true; eauto).
      split; [done|]. split; [by rewrite Hex|]. split; [|split].
      * intros key' value'. rewrite !SExists_true.
        destruct (decide (key' = key)) as [->|Hne].
        -- rewrite lookup_insert_eq, Hk. split.
           ++ intros (s & [= <-] & Hin'). apply elem_of_difference in Hin'.
              destruct Hin' as [Hin' Hne]. split; [eauto|].
              intros [_ ->]. apply Hne. by apply elem_of_singleton.
           ++ intros [(s & [= <-] & Hin') Hne]. eexists. split; [done|].
              apply elem_of_difference. split; [done|].
              intros ->%elem_of_singleton. by apply Hne.
        -- rewrite lookup_insert_ne by done. split; [|by intros [? _]].
           intros H. split; [done|]. by intros [? _].
      * rewrite lookup_insert_eq. split; eauto.
      * intros [= ->]. unfold SMembers. rewrite lookup_insert_eq.
        by rewrite difference_diag_L, elements_empty.
    + assert (Hex : SExists ss key value = false).
      { apply not_true_iff_false. rewrite SExists_true.
        intros (s & Hs & Hin). congruence. }
      rewrite Hex. split; [done|]. split; [done|]. split; [|split].
      * intros key' value'. split; [|by intros [? _]].
        intros H. split; [done|]. intros [-> ->]. congruence.
      * by rewrite Hk.
      * intros [= ->]. destruct Hnin. by apply elem_of_singleton.
  - simpl. assert (Hex : SExists ss key value = false)
      by (unfold SExists; by rewrite Hk).
    rewrite Hex, Hk. split; [done|]. split; [done|]. split; [|done].
    intros key' value'. split; [|by intros [? _]].
    intros H. split; [done|]. intros [-> ->]. congruence.
Qed.

(** X16. [SMembers] fails exactly for a key that was never added to;
    otherwise it lists each member once, and a value is listed exactly when
    [SExists] answers true. *)
Theorem SMembers_contract (ss : SetStore) (key : string) :
  (ss !! key = None -> SMembers ss key = (None, Some KeyNotFound)) /\
  (is_Some (ss !! key) ->
     exists members,
       SMembers ss key = (Some members, None) /\
       NoDup members /\
       forall value, value ∈ members <-> SExists ss key value = true) /\
  (forall value, exists members,
     SMembers (SAdd ss key value) key = (Some members, None) /\
     value ∈ members).
Proof.
  split; [|split].
  - intros Hk. unfold SMembers. by rewrite Hk.
  - intros [set Hk]. exists (elements set). unfold SMembers. rewrite Hk.
    split; [done|]. split; [apply NoDup_elements|].
    intros value. rewrite elem_of_elements, SExists_true. split; [eauto|].
    intros (s & Hs & Hin). congruence.
  - intros value. unfold SMembers. rewrite SAdd_lookup. eexists.
    split; [done|]. apply elem_of_elements, elem_of_union_l.
    by apply elem_of_singleton.
Qed.

(** * Persistence and locks *)

(** ** MemoryEngine: sweep count and save *)

Lemma count_filter_map {A} (P : string * A -> Prop)
  `{!forall x, Decision (P x)} (m : gmap string A) :
  length (filter P (map_to_list m)) = size (filter P m).
Proof.
  induction m as [|i x m Hi IH] using map_ind.
  - by rewrite map_to_list_empty, map_filter_empty, map_size_empty.
  - rewrite map_to_list_insert by done. rewrite filter_cons.
    destruct (decide (P (i, x))) as [HP|HP].
    + rewrite map_filter_insert_True by done.
      rewrite map_size_insert_None
        by (apply map_lookup_filter_None; by left).
      simpl. by rewrite IH.
    + rewrite map_filter_insert_False by done.
      rewrite delete_id by done. done.
Qed.

(** X17. [MemoryEngine.CleanupExpired] leaves the entries of
    [Database.CleanupExpired] and returns the number of keys it removed: the
    count and the size left add up to the size before, and the count is 0
    exactly when no key had expired. *)
Theorem sweep_count (me : storage.MemoryEngine) (now : Z) :
  storage.data (memory_engine.CleanupExpired me now).2
    = CleanupExpired (storage.data me) now /\
  (memory_engine.CleanupExpired me now).1
    + Z.of_nat (size (storage.data (memory_engine.CleanupExpired me now).2))
    = Z.of_nat (size (storage.data me)) /\
  ((memory_engine.CleanupExpired me now).1 = 0
   <-> forall key v, storage.data me !! key = Some v -> ~ expired now v).
Proof.
  set (P := fun kv : string * TriffValue =>
              (0 <? TTL kv.2) && (TTL kv.2 <? now) = true).
  assert (Hdata : storage.data (memory_engine.CleanupExpired me now).2
                  = CleanupExpired (storage.data me) now).
  { unfold memory_engine.CleanupExpired, CleanupExpired. simpl.
    apply map_filter_ext. intros key v _. simpl.
    by rewrite negb_true_iff, not_true_iff_false. }
  assert (Hcount : (memory_engine.CleanupExpired me now).1
                   = Z.of_nat (size (filter P (storage.data me)))).
  { unfold memory_engine.CleanupExpired. simpl. f_equal.
    apply (count_filter_map P). }
  assert (Hsplit : (size (filter P (storage.data me))
                    + size (filter (fun kv => ~ P kv) (storage.data me)))%nat
                   = size (storage.data me)).
  { rewrite <- map_size_disj_union by apply map_disjoint_filter_complement.
    by rewrite map_filter_union_complement. }
  split; [done|]. split.
  - assert (Hleft : size (storage.data (memory_engine.CleanupExpired me now).2)
                    = size (filter (fun kv => ~ P kv) (storage.data me)))
      by reflexivity.
    rewrite Hcount, Hleft. lia.
  - rewrite Hcount. split.
    + intros Hz key v Hk Hexp.
      assert (Hempty : filter P (storage.data me) = ∅)
        by (apply map_size_empty_iff; lia).
      assert (Hin : filter P (storage.data me) !! key = Some v).
      { apply map_lookup_filter_Some. split; [done|].
        unfold P. simpl. by apply expired_test. }
      rewrite Hempty in Hin. by rewrite lookup_empty in Hin.
    + intros Hnone.
      assert (Hempty : filter P (storage.data me) = ∅).
      { apply map_eq. intros key. rewrite lookup_empty.
        apply map_lookup_filter_None. right. intros v Hk HP.
        apply (Hnone key v Hk). by apply expired_test. }
      by rewrite Hempty, map_size_empty.
Qed.

Section persistence.

Variable MarshalIndent : gmap string TriffValue -> option string.
Variable Unmarshal : string -> option (gmap string TriffValue).
Variable WriteFile :
  (string -> storage.file) -> string -> string ->
  bool * (string -> storage.file).

(** With an empty persistence path [SaveToDisk] reports success and writes
    nothing; when marshalling fails the file system is left alone. *)
Lemma SaveToDisk_edges me fs :
  (storage.persistencePath me = "" ->
     memory_engine.SaveToDisk MarshalIndent WriteFile me fs = (None, fs)) /\
  (storage.persistencePath me <> "" ->
     MarshalIndent (storage.data me) = None ->
     memory_engine.SaveToDisk MarshalIndent WriteFile me fs
       = (Some memory_engine.MarshalError, fs)).
Proof.
  unfold memory_engine.SaveToDisk. split.
  - intros Hp. by destruct (decide (storage.persistencePath me = "")).
  - intros Hp HM. destruct (decide (storage.persistencePath me = "")); [done|].
    by rewrite HM.
Qed.

(** X18. Saving and loading is a round trip: when [SaveToDisk] writes the
    marshalled store to a non-empty path, the write succeeds and leaves
    those bytes in the file, and the decoder reads the bytes back as the
    store, [SaveToDisk] reports no error and a [NewMemoryEngine] constructed
    on that path afterwards starts with the same store. *)
Theorem save_then_load me fs fs' bytes autoSave :
  storage.persistencePath me <> "" ->
  MarshalIndent (storage.data me) = Some bytes ->
  Unmarshal bytes = Some (storage.data me) ->
  WriteFile fs (storage.persistencePath me) bytes = (true, fs') ->
  fs' (storage.persistencePath me) = storage.Contents bytes ->
  memory_engine.SaveToDisk MarshalIndent WriteFile me fs = (None, fs') /\
  storage.data
    (storage.NewMemoryEngine Unmarshal fs' (storage.persistencePath me)
       autoSave)
  = storage.data me.
Proof.
  intros Hpath HM HU HW Hfile. split.
  - unfold memory_engine.SaveToDisk.
    destruct (decide (storage.persistencePath me = "")); [done|].
    by rewrite HM, HW.
  - unfold storage.NewMemoryEngine, storage.loadFromDisk. simpl.
    destruct (decide (storage.persistencePath me <> "")); [|done].
    destruct (decide (storage.persistencePath me = "")); [done|].
    by rewrite Hfile, HU.
Qed.

End persistence.

Lemma save_then_load_witness :
  let me := storage.mkMemoryEngine stale_db "triff.db" false 30 in
  storage.data
    (storage.NewMemoryEngine unmarshal_stale
       (memory_engine.SaveToDisk marshal_stale write_file me no_disk).2
       "triff.db" true)
  = stale_db.
Proof.
  intros me.
  destruct (save_then_load marshal_stale unmarshal_stale write_file me
              no_disk (write_file no_disk "triff.db" "stale").2 "stale" true)
    as [Hsave Hload].
  - discriminate.
  - reflexivity.
  - reflexivity.
  - reflexivity.
  - reflexivity.
  - rewrite Hsave. exact Hload.
Defined.

(** ** DiskEngine and PersistentStore: writes wait for their own lock *)

Section disk_locks.

Variable write_json :
  (string -> storage.file) -> string -> gmap string string ->
  bool * (string -> storage.file).

(** X19. Every write of [DiskEngine] and [PersistentStore] takes the write
    lock and then, through [persist] / [Save], asks for the read lock of the
    same mutex, so it never returns: [Set], [Flush], [PersistentStore.Set]
    and [Delete] of a present key block for ever, whatever the state of the
    lock.  On a free lock only [Delete] of a missing key returns (with
    key-not-found, nothing changed), and the reads [Get] and [Exists] answer
    and release the lock. *)
Theorem disk_writes_never_return
  (mu : sync.RWMutex) (de : storage.DiskEngine) (fs : string -> storage.file)
  (key value : string) :
  disk_engine.Set_ write_json mu de fs key value = sync.Blocked /\
  disk_engine.Flush write_json mu de fs = sync.Blocked /\
  disk_engine.PersistentStore_Set write_json mu de fs key value
    = sync.Blocked /\
  (is_Some (storage.disk_data de !! key) ->
     disk_engine.Delete write_json mu de fs key = sync.Blocked) /\
  (storage.disk_data de !! key = None ->
     disk_engine.Delete write_json sync.Unlocked de fs key
       = sync.Done (Some disk_engine.KeyNotFound, de, fs, sync.Unlocked) /\
     disk_engine.Get sync.Unlocked de key
       = sync.Done ("", Some disk_engine.KeyNotFound, sync.Unlocked) /\
     disk_engine.Exists sync.Unlocked de key
       = sync.Done (false, sync.Unlocked)) /\
  (forall val, storage.disk_data de !! key = Some val ->
     disk_engine.Get sync.Unlocked de key
       = sync.Done (val, None, sync.Unlocked) /\
     disk_engine.Exists sync.Unlocked de key
       = sync.Done (true, sync.Unlocked)).
Proof.
  split; [by destruct mu|]. split; [by destruct mu|].
  split; [by destruct mu|]. split; [|split].
  - intros [val Hk]. unfold disk_engine.Delete.
    destruct mu; simpl; try done. by rewrite Hk.
  - intros Hk. unfold disk_engine.Delete, disk_engine.Get, disk_engine.Exists.
    simpl. by rewrite Hk.
  - intros val Hk. unfold disk_engine.Get, disk_engine.Exists.
    simpl. by rewrite Hk.
Qed.

End disk_locks.

(** * The bulk string commands *)

Lemma MSet_cons db stamp kv order :
  (bulk.MSet db stamp (kv :: order)).2
  = (bulk.MSet
       (Set_ db (stamp kv.1) kv.1
          (mkTriffValue STRING (VString kv.2) 0 zeroTime zeroTime)).2
       stamp order).2.
Proof. reflexivity. Qed.

Lemma MSet_other order : forall db stamp key,
  key ∉ order.*1 -> (bulk.MSet db stamp order).2 !! key = db !! key.
Proof.
  induction order as [|kv order IH]; intros db stamp key Hnin; [done|].
  rewrite fmap_cons in Hnin. apply not_elem_of_cons in Hnin as [Hne Hnin].
  rewrite MSet_cons, IH by done. by apply Set_other.
Qed.

Lemma MSet_written order : forall db stamp key value,
  NoDup order.*1 -> (key, value) ∈ order ->
  holds_string (bulk.MSet db stamp order).2 key value.
Proof.
  induction order as [|kv order IH]; intros db stamp key value Hnd Hin.
  - by apply elem_of_nil in Hin.
  - rewrite fmap_cons in Hnd. apply NoDup_cons in Hnd as [Hhead Hnd].
    apply elem_of_cons in Hin as [<-|Hin].
    + unfold holds_string. rewrite MSet_cons, MSet_other by done.
      apply Append_store.
    + rewrite MSet_cons. by apply IH.
Qed.

Lemma MGet_strings keys : forall i db now values,
  Forall2 (holds_string db) keys values ->
  bulk.MGet_from i db now keys = (VString <$> values, db).
Proof.
  induction keys as [|key keys IH]; intros i db now values Hall.
  - by apply Forall2_nil_inv_l in Hall as ->.
  - apply Forall2_cons_inv_l in Hall as (value & rest & Hhold & Hall & ->).
    destruct Hhold as (v & Hk & Hty & Hdata & Httl).
    cbn [bulk.MGet_from].
    rewrite (Get_live _ _ _ v) by (by apply live_forever).
    rewrite (IH _ _ _ rest Hall).
    destruct (decide (Type_ v <> STRING)); [done|]. by rewrite Hdata.
Qed.

(** X20. [MSet] answers OK and, in whatever order the pairs of the argument
    map are visited, leaves every key of the map holding its value as a
    STRING without expiry and every other key untouched.  [MGet] of keys of
    that map, at any later instants, then answers their values in the order
    asked and changes nothing. *)
Theorem MSet_then_MGet
  (db : Database) (stamp : string -> Z) (keyValues : gmap string string)
  (order : list (string * string)) (now : nat -> Z) (keys : list string) :
  order ≡ₚ map_to_list keyValues ->
  Forall (fun key => is_Some (keyValues !! key)) keys ->
  let db' := (bulk.MSet db stamp order).2 in
  (bulk.MSet db stamp order).1 = ok_reply /\
  (forall key value, keyValues !! key = Some value ->
     holds_string db' key value) /\
  (forall key, keyValues !! key = None -> db' !! key = db !! key) /\
  bulk.MGet db' now keys
    = ((fun key => VString (default "" (keyValues !! key))) <$> keys, db').
Proof.
  intros Hperm Hkeys db'.
  assert (Hnd : NoDup order.*1).
  { rewrite Hperm. apply NoDup_fst_map_to_list. }
  assert (Hwritten : forall key value, keyValues !! key = Some value ->
            holds_string db' key value).
  { intros key value Hk. apply MSet_written; [done|].
    rewrite Hperm. by apply elem_of_map_to_list. }
  split; [done|]. split; [done|]. split.
  - intros key Hk. apply MSet_other. intros Hin.
    apply list_elem_of_fmap in Hin as ([k value] & -> & Hin).
    rewrite Hperm in Hin. apply elem_of_map_to_list in Hin.
    simpl in Hk. congruence.
  - unfold bulk.MGet.
    rewrite (MGet_strings keys 0 db' now
               ((fun key => default "" (keyValues !! key)) <$> keys)).
    + by rewrite <- list_fmap_compose.
    + apply Forall2_fmap_r, Forall_Forall2_diag.
      eapply Forall_impl; [exact Hkeys|].
      intros key [value Hk]. simpl. rewrite Hk. simpl. by apply Hwritten.
Qed.

Lemma MSet_then_MGet_witness :
  let db' :=
    (bulk.MSet stale_db (fun _ => 300) [("host", "localhost"); ("port", "3000")]).2 in
  bulk.MGet db' (fun i => 400 + Z.of_nat i) ["port"; "host"]
  = ([VString "3000"; VString "localhost"], db').
Proof.
  intros db'.
  destruct (MSet_then_MGet stale_db (fun _ => 300)
              (list_to_map [("host", "localhost"); ("port", "3000")])
              [("host", "localhost"); ("port", "3000")]
              (fun i => 400 + Z.of_nat i) ["port"; "host"])
    as (_ & _ & _ & HMGet).
  - rewrite map_to_list_to_map; [done|].
    apply (bool_decide_unpack _). reflexivity.
  - repeat constructor; by eexists.
  - exact HMGet.
Defined.

(** * Parsing and dispatching commands *)

(** ** Fields and TrimSpace *)

Lemma Fields_from_word word s :
  word <> "" -> strings.Fields_from word s <> [].
Proof.
  revert word. induction s as [|c s IH]; intros word Hw; simpl.
  - by destruct word.
  - destruct (strings.is_space c).
    + by destruct word.
    + apply IH. by destruct word.
Qed.

Lemma Fields_TrimLeft s :
  strings.Fields (strings.TrimLeft s) = strings.Fields s.
Proof.
  unfold strings.Fields. induction s as [|c s IH]; [done|]. simpl.
  destruct (strings.is_space c) eqn:Hc; [done|]. simpl. by rewrite Hc.
Qed.

Lemma Fields_from_TrimRight s : forall word,
  strings.Fields_from word (strings.TrimRight s) = strings.Fields_from word s.
Proof.
  induction s as [|c s IH]; intros word; [done|].
  cbn [strings.TrimRight].
  destruct (strings.TrimRight s) as [|c' s'] eqn:Htrim.
  - destruct (strings.is_space c) eqn:Hc; simpl; rewrite Hc.
    + rewrite <- IH. by destruct word.
    + by rewrite <- IH.
  - simpl. destruct (strings.is_space c); by rewrite <- !IH.
Qed.

Lemma Fields_TrimSpace s :
  strings.Fields (strings.TrimSpace s) = strings.Fields s.
Proof.
  unfold strings.TrimSpace, strings.Fields.
  rewrite Fields_from_TrimRight. apply Fields_TrimLeft.
Qed.

Lemma TrimLeft_head s :
  match strings.TrimLeft s with
  | EmptyString => True
  | String c _ => strings.is_space c = false
  end.
Proof.
  induction s as [|c s IH]; [done|]. simpl.
  destruct (strings.is_space c) eqn:Hc; [done|]. done.
Qed.

Lemma TrimRight_head c s :
  strings.is_space c = false ->
  exists rest, strings.TrimRight (String c s) = String c rest.
Proof.
  intros Hc. cbn [strings.TrimRight]. rewrite Hc.
  destruct (strings.TrimRight s) as [|c' s']; by eexists.
Qed.

Lemma TrimSpace_empty s :
  strings.TrimSpace s = "" <-> strings.Fields s = [].
Proof.
  split.
  - intros Hs. by rewrite <- Fields_TrimSpace, Hs.
  - intros Hf. rewrite <- Fields_TrimSpace in Hf. unfold strings.TrimSpace in *.
    pose proof (TrimLeft_head s) as Hhead.
    destruct (strings.TrimLeft s) as [|c t]; [done|].
    destruct (TrimRight_head c t Hhead) as [rest Hrest].
    rewrite Hrest in Hf.
    unfold strings.Fields in Hf. cbn [strings.Fields_from] in Hf.
    rewrite Hhead in Hf. by apply Fields_from_word in Hf.
Qed.

Lemma ToUpper_idempotent s :
  strings.ToUpper (strings.ToUpper s) = strings.ToUpper s.
Proof.
  induction s as [|c s IH]; [done|]. simpl. rewrite IH. f_equal.
  unfold strings.upper.
  destruct ((97 <=? nat_of_ascii c)%nat && (nat_of_ascii c <=? 122)%nat)
    eqn:Hc; [|by rewrite Hc].
  apply andb_true_iff in Hc as [H1%Nat.leb_le H2%Nat.leb_le].
  rewrite nat_ascii_embedding by lia.
  assert (((97 <=? nat_of_ascii c - 32)%nat
           && (nat_of_ascii c - 32 <=? 122)%nat) = false) as ->; [|done].
  apply andb_false_iff. left. apply Nat.leb_gt. lia.
Qed.

(** X21. On ASCII text [ParseCommand] never indexes an empty slice: it
    fails with "empty command" exactly when the input holds nothing but
    white space, and otherwise answers the first field in upper case
    together with the remaining fields, none of which is empty. *)
Theorem ParseCommand_contract (input : string) :
  strings.ascii_only input = true ->
  (strings.Fields input = [] ->
     utils.ParseCommand input = Returns ("", [], Some utils.EmptyCommand)) /\
  (forall first args, strings.Fields input = first :: args ->
     utils.ParseCommand input = Returns (strings.ToUpper first, args, None) /\
     strings.ToUpper (strings.ToUpper first) = strings.ToUpper first) /\
  utils.ParseCommand input <> Panics /\
  Forall (fun field => field <> "") (strings.Fields input).
Proof.
  intros _.
  assert (Hempty : strings.Fields input = [] ->
            utils.ParseCommand input = Returns ("", [], Some utils.EmptyCommand)).
  { intros Hf. unfold utils.ParseCommand.
    apply TrimSpace_empty in Hf. rewrite Hf. done. }
  assert (Hcons : forall first args, strings.Fields input = first :: args ->
            utils.ParseCommand input = Returns (strings.ToUpper first, args, None)).
  { intros first args Hf. unfold utils.ParseCommand.
    destruct (decide (strings.TrimSpace input = "")) as [He|_].
    - apply TrimSpace_empty in He. congruence.
    - by rewrite Fields_TrimSpace, Hf. }
  split; [done|]. split; [|split].
  - intros first args Hf. split; [by apply Hcons|apply ToUpper_idempotent].
  - destruct (strings.Fields input) as [|first args] eqn:Hf.
    + by rewrite Hempty.
    + by rewrite (Hcons first args).
  - unfold strings.Fields.
    assert (Hgen : forall s word,
              Forall (fun field => field <> "")
                (strings.Fields_from word s)).
    { induction s as [|c s IH]; intros word; simpl.
      - destruct word; by repeat constructor.
      - destruct (strings.is_space c); [|apply IH].
        destruct word; [apply IH|]. constructor; [done|apply IH]. }
    apply Hgen.
Qed.

Lemma ParseCommand_contract_witness :
  utils.ParseCommand "  set  user:1   42 " = Returns ("SET", ["user:1"; "42"], None).
Proof.
  destruct (ParseCommand_contract "  set  user:1   42 ") as (_ & Hparse & _).
  - reflexivity.
  - apply (Hparse "set" ["user:1"; "42"]). reflexivity.
Defined.

(** ** The TCP dispatcher *)

Section dispatcher.

Variable info_lines : Database -> string.

Abbreviation run_command := (server.processCommand info_lines).


End dispatcher.


(** ** The dispatcher never crashes *)

Lemma well_typed_SetTTL db now key seconds :
  well_typed db -> well_typed (SetTTL db now key seconds).2.
Proof.
  intros Hwt. unfold SetTTL. destruct (db !! key) as [v|] eqn:Hk; [|done].
  simpl. intros key' v' Hk' Hty. destruct (decide (key' = key)) as [->|Hne].
  - rewrite lookup_insert_eq in Hk'. injection Hk' as <-. simpl in *.
    by apply (Hwt key v).
  - rewrite lookup_insert_ne in Hk' by done. by apply (Hwt key' v').
Qed.

Lemma well_typed_Delete db key : well_typed db -> well_typed (Delete db key).2.
Proof.
  intros Hwt. unfold Delete. destruct (db !! key); [|done].
  by apply well_typed_delete.
Qed.

Lemma IncrBy_failure db now stamp key n r db' :
  commands.IncrBy db now stamp key n = Returns (r, db') ->
  Response.Success r = false -> db' = db.
Proof.
  unfold commands.IncrBy, Get. destruct (db !! key) as [v|] eqn:Hk.
  - destruct ((0 <? TTL v) && (TTL v <? now)); cbn -[Set_].
    + destruct (Set_ _ _ _ _) as [e d]. by intros [= <- <-].
    + destruct (decide (Type_ v <> STRING)); [by intros [= <- <-]|].
      destruct (Data v) as [|s| | |]; cbn -[Set_]; try discriminate.
      destruct (strconv.ParseInt s); [|by intros [= <- <-]].
      destruct (Set_ _ _ _ _) as [e d]. by intros [= <- <-].
  - cbn -[Set_]. destruct (Set_ _ _ _ _) as [e d]. by intros [= <- <-].
Qed.

Lemma Strlen_outcome db now key :
  well_typed db ->
  exists r db',
    commands.Strlen db now key = Returns (r, db') /\ well_typed db' /\
    ((Response.Success r = true /\ exists n, Response.Data r = VInt n) \/
     (Response.Success r = false /\ db' = db)).
Proof.
  intros Hwt. pose proof (well_typed_Get db now key Hwt) as Hwt0.
  unfold commands.Strlen, Get in *. destruct (db !! key) as [v|] eqn:Hk.
  - destruct ((0 <? TTL v) && (TTL v <? now)); simpl in *.
    + do 2 eexists. split; [done|]. split; [done|]. left. eauto.
    + destruct (decide (Type_ v <> STRING)) as [Hne|Heq].
      * do 2 eexists. split; [done|]. split; [done|]. by right.
      * destruct (Hwt key v Hk) as [s Hs]; [by apply dec_stable|].
        rewrite Hs. simpl. do 2 eexists. split; [done|]. split; [done|].
        left. eauto.
  - simpl in *. do 2 eexists. split; [done|]. split; [done|]. left. eauto.
Qed.

Lemma command_Get_outcome db now key :
  well_typed db ->
  exists r db',
    commands.Get db now key = (r, db') /\ well_typed db' /\
    (Response.Success r = true -> exists s, Response.Data r = VString s) /\
    (Response.Success r = false -> Response.Data r = VNil).
Proof.
  intros Hwt. pose proof (well_typed_Get db now key Hwt) as Hwt0.
  unfold commands.Get, Get in *. destruct (db !! key) as [v|] eqn:Hk.
  - destruct ((0 <? TTL v) && (TTL v <? now)); simpl in *.
    + do 2 eexists. by repeat split.
    + destruct (decide (Type_ v <> STRING)) as [Hne|Heq].
      * do 2 eexists. by repeat split.
      * destruct (Hwt key v Hk) as [s Hs]; [by apply dec_stable|].
        do 2 eexists. split; [done|]. split; [done|]. simpl.
        split; [eauto|done].
  - simpl in *. do 2 eexists. by repeat split.
Qed.

Lemma well_typed_DEL args : forall count db,
  well_typed db ->
  well_typed
    (foldl (fun '(count, db) key =>
              let '(deleted, db) := Delete db key in
              (if deleted then count + 1 else count, db))
           (count, db) args).2.
Proof.
  induction args as [|key args IH]; intros count db Hwt; [done|].
  simpl. pose proof (well_typed_Delete db key Hwt) as Hwt'.
  destruct (Delete db key) as [deleted db1]. by apply IH.
Qed.

Ltac reply_shape :=
  first
    [ by (do 2 eexists; split; [reflexivity|by repeat constructor])
    | by (intros [? [=]]) ].

Lemma settled_unchanged db reply :
  well_typed db -> well_formed_reply reply -> settled db (Returns (reply, db)).
Proof. intros Hwt Hwf. exists reply, db. by repeat split. Qed.

Lemma settled_changed db db' reply :
  well_typed db' -> well_formed_reply reply -> ~ is_error_reply reply ->
  settled db (Returns (reply, db')).
Proof.
  intros Hwt Hwf Hne. exists reply, db'. by repeat split.
Qed.

Lemma number_reply_settled db db' assert r :
  well_typed db' ->
  ((Response.Success r = true /\
    exists n, assert (Response.Data r) = Returns n) \/
   (Response.Success r = false /\ db' = db)) ->
  settled db
    (reply ← server.number_reply assert r; mret (reply, db')).
Proof.
  intros Hwt [[Hok [n Hn]]|[Hfail ->]]; unfold server.number_reply.
  - rewrite Hok, Hn. apply settled_changed; [done|reply_shape|reply_shape].
  - rewrite Hfail. apply settled_unchanged; [done|reply_shape].
Qed.

Section dispatcher_safety.

Variable info_lines : Database -> string.

Lemma numeric_command_settled db now stamp key n :
  well_typed db ->
  settled db
    ('(response, db) ← commands.IncrBy db now stamp key n;
     reply ← server.number_reply server.assert_int64 response;
     mret (reply, db)).
Proof.
  intros Hwt. destruct (IncrBy_returns db now stamp key n Hwt)
    as (r & db' & Hrun & Hwt').
  rewrite Hrun. cbn [mbind outcome_bind].
  apply number_reply_settled; [done|].
  destruct (Response.Success r) eqn:Hok.
  - left. split; [done|].
    destruct (IncrBy_success _ _ _ _ _ _ _ Hrun Hok) as (nv & -> & _).
    by exists nv.
  - right. split; [done|]. by apply (IncrBy_failure _ _ _ _ _ _ _ Hrun).
Qed.

(** X23. On a well-typed store, and for every ASCII input line, the
    dispatcher returns: no type assertion panics.  The reply is well formed
    (it starts with one of [+ - : $ *]), the store it leaves is well typed
    again, and whenever the reply is an error the store is unchanged. *)
Theorem dispatcher_never_crashes
  (db : Database) (now stamp : Z) (input : string) :
  strings.ascii_only input = true ->
  well_typed db ->
  settled db (server.processCommand info_lines db now stamp input).
Proof.
  intros _ Hwt. unfold server.processCommand.
  destruct (strings.Fields input) as [|name args];
    [apply settled_unchanged; [done|reply_shape]|].
  cbv zeta.
  destruct (decide (strings.ToUpper name = "PING")) as [_|_];
    [apply settled_unchanged; [done|reply_shape]|].
  destruct (decide (strings.ToUpper name = "SET")) as [_|_].
  { destruct args as [|key [|value options]];
      try (apply settled_unchanged; [done|reply_shape]).
    destruct (match options with
              | option :: seconds :: _ =>
                  if decide (strings.ToUpper option = "EX")
                  then strconv.ParseInt seconds else Some 0
              | _ => Some 0
              end) as [ttl|];
      [|apply settled_unchanged; [done|reply_shape]].
    pose proof (command_Set_reply db now stamp key value ttl) as Hreply.
    pose proof (well_typed_command_Set db now stamp key value ttl Hwt) as Hwt'.
    destruct (commands.Set_ db now stamp key value ttl) as [response db1].
    simpl in Hreply, Hwt'. rewrite Hreply. simpl.
    apply settled_changed; [done|reply_shape|reply_shape]. }
  destruct (decide (strings.ToUpper name = "GET")) as [_|_].
  { destruct args as [|key [|? ?]];
      try (apply settled_unchanged; [done|reply_shape]).
    destruct (command_Get_outcome db now key Hwt)
      as (r & db1 & -> & Hwt' & Hok & Hfail).
    destruct (Response.Success r) eqn:Hs.
    - destruct (Hok eq_refl) as [s ->]. simpl.
      apply settled_changed; [done|reply_shape|reply_shape].
    - simpl. apply settled_changed; [done|reply_shape|reply_shape]. }
  destruct (decide (strings.ToUpper name = "DEL")) as [_|_].
  { destruct args as [|key args];
      [apply settled_unchanged; [done|reply_shape]|].
    pose proof (well_typed_DEL (key :: args) 0 db Hwt) as Hwt'.
    destruct (foldl _ (0, db) (key :: args)) as [count db1].
    apply settled_changed; [done|reply_shape|reply_shape]. }
  destruct (decide (strings.ToUpper name = "EXISTS")) as [_|_].
  { destruct args as [|key [|? ?]];
      try (apply settled_unchanged; [done|reply_shape]).
    destruct (Exists db key);
      (apply settled_unchanged; [done|reply_shape]). }
  destruct (decide (strings.ToUpper name = "KEYS")) as [_|_].
  { apply settled_unchanged; [done|].
    assert (Hfold : forall keys acc,
              well_formed_reply acc ->
              well_formed_reply
                (foldl (fun result key =>
                          result +:+ "$" +:+ server.itoa (server.strlen key)
                                 +:+ server.CRLF +:+ key +:+ server.CRLF)
                       acc keys)).
    { induction keys as [|key keys IH]; intros acc Hacc; [done|].
      simpl. apply IH. destruct Hacc as (kind & rest & -> & Hkind).
      do 2 eexists. split; [reflexivity|done]. }
    apply Hfold. reply_shape. }
  destruct (decide (strings.ToUpper name = "FLUSHALL")) as [_|_].
  { apply settled_changed; [|reply_shape|reply_shape].
    intros key v Hk. simpl in Hk. by rewrite lookup_empty in Hk. }
  destruct (decide (strings.ToUpper name = "INFO")) as [_|_];
    [apply settled_unchanged; [done|reply_shape]|].
  destruct (decide (strings.ToUpper name = "DBSIZE")) as [_|_];
    [apply settled_unchanged; [done|reply_shape]|].
  destruct (decide (strings.ToUpper name = "TTL")) as [_|_].
  { destruct args as [|key [|? ?]];
      apply settled_unchanged; done || reply_shape. }
  destruct (decide (strings.ToUpper name = "EXPIRE")) as [_|_].
  { destruct args as [|key [|seconds [|? ?]]];
      try (apply settled_unchanged; [done|reply_shape]).
    destruct (strconv.ParseInt seconds) as [secs|];
      [|apply settled_unchanged; [done|reply_shape]].
    pose proof (well_typed_SetTTL db now key secs Hwt) as Hwt'.
    destruct (SetTTL db now key secs) as [[|] db1];
      (apply settled_changed; [done|reply_shape|reply_shape]). }
  destruct (decide (strings.ToUpper name = "INCR")) as [_|_].
  { destruct args as [|key [|? ?]];
      try (apply settled_unchanged; [done|reply_shape]).
    by apply numeric_command_settled. }
  destruct (decide (strings.ToUpper name = "DECR")) as [_|_].
  { destruct args as [|key [|? ?]];
      try (apply settled_unchanged; [done|reply_shape]).
    by apply numeric_command_settled. }
  destruct (decide (strings.ToUpper name = "APPEND")) as [_|_].
  { destruct args as [|key [|value [|? ?]]];
      try (apply settled_unchanged; [done|reply_shape]).
    destruct (Append_well_typed db now stamp key value Hwt)
      as (r & db1 & Hrun & Hwt').
    rewrite Hrun. cbn [mbind outcome_bind].
    apply number_reply_settled; [done|]. left.
    destruct (Append_returns _ _ _ _ _ _ _ Hrun) as (nv & -> & _).
    split; [done|]. by eexists. }
  destruct (decide (strings.ToUpper name = "STRLEN")) as [_|_].
  { destruct args as [|key [|? ?]];
      try (apply settled_unchanged; [done|reply_shape]).
    destruct (Strlen_outcome db now key Hwt)
      as (r & db1 & -> & Hwt' & Hcases).
    cbn [mbind outcome_bind].
    apply number_reply_settled; [done|].
    destruct Hcases as [[Hok [n ->]]|[Hfail ->]]; [left|by right].
    split; [done|]. by eexists. }
  apply settled_unchanged; [done|reply_shape].
Qed.

End dispatcher_safety.

Lemma dispatcher_never_crashes_witness :
  settled stale_db (server.processCommand no_info stale_db 200 200 "incr session").
Proof.
  apply (dispatcher_never_crashes no_info stale_db 200 200 "incr session").
  - reflexivity.
  - unfold stale_db. apply well_typed_command_Set, well_typed_empty.
Defined.

(** ** A session over the TCP protocol *)

Lemma command_Set_expiring db now stamp key value ttl :
  0 <= now -> 0 < ttl -> int64.InRange (now + ttl) ->
  exists v,
    (commands.Set_ db now stamp key value ttl).2 !! key = Some v /\
    Type_ v = STRING /\ Data v = VString value /\ TTL v = now + ttl.
Proof.
  intros Hnow Httl Hrange. rewrite command_Set_stores.
  destruct (Set_stores db stamp key
              (mkTriffValue STRING (VString value)
                 (if 0 <? ttl then int64.add now ttl else ttl)
                 zeroTime zeroTime))
    as (v & Hk & Hty & Hdata & Httl' & _).
  exists v. repeat split; try done. rewrite Httl'. simpl.
  assert ((0 <? ttl) = true) as -> by (apply Z.ltb_lt; lia).
  by apply wrap_id.
Qed.

Lemma command_Set_plain db now stamp key value :
  holds_string (commands.Set_ db now stamp key value 0).2 key value.
Proof. rewrite command_Set_stores. apply Append_store. Qed.

Ltac pick_command Hname :=
  unfold server.processCommand;
  match goal with H : strings.Fields _ = _ |- _ => rewrite H end;
  cbv zeta; rewrite Hname;
  rewrite ?decide_False by discriminate;
  rewrite decide_True by reflexivity.

Section session.

Variable info_lines : Database -> string.

(** X24. Over the TCP protocol, on ASCII lines and with the command names
    in any letter case: [SET key value] answers [+OK], and [GET key] then
    answers the value as a bulk string at every later instant.  After
    [SET key value EX seconds] with a positive number of seconds, [TTL key]
    answers the seconds left while some are left, and once the expiry has
    passed [GET key] answers the null bulk string [$-1] and [TTL key]
    answers [:-2]. *)
Theorem tcp_session
  (db : Database) (now stamp : Z) (set_name get_name ttl_name ex : string)
  (key value seconds : string) (ttl : Z)
  (line_set line_set_ex line_get line_ttl : string) :
  strings.ascii_only line_set = true ->
  strings.ascii_only line_set_ex = true ->
  strings.ascii_only line_get = true ->
  strings.ascii_only line_ttl = true ->
  strings.ToUpper set_name = "SET" -> strings.ToUpper get_name = "GET" ->
  strings.ToUpper ttl_name = "TTL" -> strings.ToUpper ex = "EX" ->
  strings.Fields line_set = [set_name; key; value] ->
  strings.Fields line_set_ex = [set_name; key; value; ex; seconds] ->
  strings.Fields line_get = [get_name; key] ->
  strings.Fields line_ttl = [ttl_name; key] ->
  strconv.ParseInt seconds = Some ttl ->
  0 <= now -> 0 < ttl -> int64.InRange (now + ttl) ->
  (exists db1,
     server.processCommand info_lines db now stamp line_set
       = Returns ("+OK", db1) /\
     forall now' stamp',
       server.processCommand info_lines db1 now' stamp' line_get
         = Returns ("$" +:+ server.itoa (server.strlen value)
                        +:+ server.CRLF +:+ value, db1)) /\
  (exists db1,
     server.processCommand info_lines db now stamp line_set_ex
       = Returns ("+OK", db1) /\
     (forall now' stamp', now <= now' < now + ttl ->
        server.processCommand info_lines db1 now' stamp' line_ttl
          = Returns (":" +:+ server.itoa (now + ttl - now'), db1)) /\
     (forall now' stamp', now + ttl < now' ->
        server.processCommand info_lines db1 now' stamp' line_get
          = Returns ("$-1", delete key db1) /\
        server.processCommand info_lines (delete key db1) now' stamp' line_ttl
          = Returns (":-2", delete key db1))).
Proof.
  intros _ _ _ _ HSET HGET HTTL HEX Fset Fsetex Fget Fttl Hsecs Hnow Httl Hrange.
  split.
  - exists (commands.Set_ db now stamp key value 0).2. split.
    + pick_command HSET.
      pose proof (command_Set_reply db now stamp key value 0) as Hreply.
      destruct (commands.Set_ db now stamp key value 0) as [r d].
      simpl in *. by rewrite Hreply.
    + intros now' stamp'. pick_command HGET.
      destruct (command_Set_plain db now stamp key value)
        as (v & Hk & Hty & Hdata & Httl0).
      rewrite (command_Get_live _ _ _ v value);
        [done|by apply live_forever|done|done].
  - exists (commands.Set_ db now stamp key value ttl).2.
    destruct (command_Set_expiring db now stamp key value ttl Hnow Httl Hrange)
      as (v & Hk & Hty & Hdata & Hexp).
    split; [|split].
    + pick_command HSET. rewrite HEX.
      rewrite decide_True by reflexivity. rewrite Hsecs.
      pose proof (command_Set_reply db now stamp key value ttl) as Hreply.
      destruct (commands.Set_ db now stamp key value ttl) as [r d].
      simpl in *. by rewrite Hreply.
    + intros now' stamp' Hle. pick_command HTTL.
      rewrite (GetTTL_with_expiry _ _ _ v) by (done || lia).
      rewrite remaining_exact
        by (rewrite Hexp; unfold int64.InRange, int64.min, int64.max in *; lia).
      rewrite Hexp.
      by destruct (now + ttl - now' <=? 0) eqn:E; [apply Z.leb_le in E; lia|].
    + intros now' stamp' Hlt.
      assert (Hgone : expired now' v) by (unfold expired; lia).
      split.
      * pick_command HGET. unfold commands.Get.
        by rewrite (Get_evicts _ _ _ v).
      * pick_command HTTL. unfold GetTTL. by rewrite lookup_delete_eq.
Qed.

End session.

Lemma tcp_session_witness :
  exists db1,
    server.processCommand no_info NewDatabase 40 40 "set session active EX 60"
      = Returns ("+OK", db1) /\
    server.processCommand no_info db1 70 70 "ttl session" = Returns (":30", db1) /\
    server.processCommand no_info db1 101 101 "GET session"
      = Returns ("$-1", delete "session" db1).
Proof.
  destruct (tcp_session no_info NewDatabase 40 40 "set" "GET" "ttl" "EX"
              "session" "active" "60" 60
              "set session active" "set session active EX 60"
              "GET session" "ttl session")
    as [_ (db1 & Hset & Httl & Hget)];
    try reflexivity; try lia;
    [unfold int64.InRange, int64.min, int64.max; lia|].
  exists db1. split; [done|]. split.
  - apply (Httl 70 70). lia.
  - apply (Hget 101 101). lia.
Defined.

(** ** The command layer keeps payloads typed *)




(** ** Configuration *)

Lemma env_step_other {A B : Type} (f : config.Config -> B) (raw : string)
    (parsed : option A) (set : A -> config.Config -> config.Config)
    (c : config.Config) :
  (forall a c', f (set a c') = f c') ->
  f (env_step raw parsed set c) = f c.
Proof.
  intros Hframe. unfold env_step.
  destruct (decide (raw <> "")); [destruct parsed |]; by rewrite ?Hframe.
Qed.

Lemma env_step_same {A : Type} (f : config.Config -> A) (raw : string)
    (parsed : option A) (set : A -> config.Config -> config.Config)
    (c : config.Config) :
  (forall a c', f (set a c') = a) ->
  f (env_step raw parsed set c)
  = if decide (raw <> "")
    then match parsed with Some a => a | None => f c end
    else f c.
Proof.
  intros Hset. unfold env_step.
  destruct (decide (raw <> "")); [destruct parsed |]; by rewrite ?Hset.
Qed.

Ltac read_field f :=
  rewrite ?(env_step_other f) by done;
  rewrite (env_step_same f) by done;
  rewrite ?(env_step_other f) by done.

Lemma env_rule_merged {A : Type} (raw : string) (parsed : option A)
    (from_file fallback : A) :
  env_rule raw parsed from_file fallback
    (if decide (raw <> "")
     then if decide (raw <> "")
          then match parsed with Some a => a | None => fallback end
          else fallback
     else from_file).
Proof.
  unfold env_rule. destruct (decide (raw <> "")) as [Hset | Hunset].
  - repeat split.
    + intros Hraw. by destruct Hset.
    + intros a _ Hparsed. by rewrite Hparsed.
    + intros _ Hparsed. by rewrite Hparsed.
  - apply dec_stable in Hunset. repeat split; try done.
    all: intros; by subst.
Qed.

Section configuration.

Variable Getenv : string -> string.
Variable yaml_Unmarshal : string -> config.Config -> option config.Config.
Variable fs : string -> storage.file.

Lemma GetEnvConfig_steps :
  config.GetEnvConfig Getenv
  = env_step (Getenv "TRIFF_ENABLE_TCP")
      (config.ParseBool (Getenv "TRIFF_ENABLE_TCP")) config.set_EnableTCP
      (env_step (Getenv "TRIFF_ENABLE_HTTP")
         (config.ParseBool (Getenv "TRIFF_ENABLE_HTTP")) config.set_EnableHTTP
         (env_step (Getenv "TRIFF_LOG_LEVEL") (Some (Getenv "TRIFF_LOG_LEVEL"))
            config.set_LogLevel
            (env_step (Getenv "TRIFF_PERSISTENCE_PATH")
               (Some (Getenv "TRIFF_PERSISTENCE_PATH"))
               config.set_PersistencePath
               (env_step (Getenv "TRIFF_MAX_MEMORY")
                  (strconv.ParseInt (Getenv "TRIFF_MAX_MEMORY"))
                  config.set_MaxMemory
                  (env_step (Getenv "TRIFF_HTTP_PORT")
                     (config.Atoi (Getenv "TRIFF_HTTP_PORT"))
                     config.set_HTTPPort
                     (env_step (Getenv "TRIFF_PORT")
                        (config.Atoi (Getenv "TRIFF_PORT")) config.set_Port
                        config.defaults)))))).
Proof. reflexivity. Qed.

Lemma MergeConfigs_steps (filepath : string) (file : config.Config) :
  config.LoadConfig yaml_Unmarshal fs filepath = inl file ->
  let env := config.GetEnvConfig Getenv in
  config.MergeConfigs Getenv yaml_Unmarshal fs filepath
  = inl
      (env_step (Getenv "TRIFF_ENABLE_TCP") (Some (config.EnableTCP env))
         config.set_EnableTCP
         (env_step (Getenv "TRIFF_ENABLE_HTTP") (Some (config.EnableHTTP env))
            config.set_EnableHTTP
            (env_step (Getenv "TRIFF_LOG_LEVEL") (Some (config.LogLevel env))
               config.set_LogLevel
               (env_step (Getenv "TRIFF_PERSISTENCE_PATH")
                  (Some (config.PersistencePath env))
                  config.set_PersistencePath
                  (env_step (Getenv "TRIFF_MAX_MEMORY")
                     (Some (config.MaxMemory env)) config.set_MaxMemory
                     (env_step (Getenv "TRIFF_HTTP_PORT")
                        (Some (config.HTTPPort env)) config.set_HTTPPort
                        (env_step (Getenv "TRIFF_PORT")
                           (Some (config.Port env)) config.set_Port
                           file))))))).
Proof. unfold config.MergeConfigs. by intros ->. Qed.

(** X26. [MergeConfigs] fails exactly when [LoadConfig] does, with the same
    error.  Otherwise every field is decided by its environment variable
    alone: unset (or empty), the field keeps the value of the file; set and
    well formed, the variable wins; set but rejected by [strconv.Atoi],
    [strconv.ParseInt] or [strconv.ParseBool], the field falls back to the
    built-in default and the value of the file is lost.  The two text fields
    take any non-empty variable as it is. *)
Theorem MergeConfigs_priority (filepath : string) :
  match config.LoadConfig yaml_Unmarshal fs filepath with
  | inr err => config.MergeConfigs Getenv yaml_Unmarshal fs filepath = inr err
  | inl file =>
      exists merged,
        config.MergeConfigs Getenv yaml_Unmarshal fs filepath = inl merged /\
        env_rule (Getenv "TRIFF_PORT") (config.Atoi (Getenv "TRIFF_PORT"))
          (config.Port file) 6379 (config.Port merged) /\
        env_rule (Getenv "TRIFF_HTTP_PORT")
          (config.Atoi (Getenv "TRIFF_HTTP_PORT"))
          (config.HTTPPort file) 8080 (config.HTTPPort merged) /\
        env_rule (Getenv "TRIFF_MAX_MEMORY")
          (strconv.ParseInt (Getenv "TRIFF_MAX_MEMORY"))
          (config.MaxMemory file) (1024 * 1024 * 1024)
          (config.MaxMemory merged) /\
        env_rule (Getenv "TRIFF_PERSISTENCE_PATH")
          (Some (Getenv "TRIFF_PERSISTENCE_PATH"))
          (config.PersistencePath file) "./triff.db"
          (config.PersistencePath merged) /\
        env_rule (Getenv "TRIFF_LOG_LEVEL") (Some (Getenv "TRIFF_LOG_LEVEL"))
          (config.LogLevel file) "info" (config.LogLevel merged) /\
        env_rule (Getenv "TRIFF_ENABLE_HTTP")
          (config.ParseBool (Getenv "TRIFF_ENABLE_HTTP"))
          (config.EnableHTTP file) true (config.EnableHTTP merged) /\
        env_rule (Getenv "TRIFF_ENABLE_TCP")
          (config.ParseBool (Getenv "TRIFF_ENABLE_TCP"))
          (config.EnableTCP file) true (config.EnableTCP merged)
  end.
Proof.
  destruct (config.LoadConfig yaml_Unmarshal fs filepath)
    as [file | err] eqn:Hload.
  - eexists. split; [by apply MergeConfigs_steps |].
    rewrite GetEnvConfig_steps.
    repeat match goal with |- _ /\ _ => split end.
    + do 2 read_field config.Port. apply env_rule_merged.
    + do 2 read_field config.HTTPPort. apply env_rule_merged.
    + do 2 read_field config.MaxMemory. apply env_rule_merged.
    + do 2 read_field config.PersistencePath. apply env_rule_merged.
    + do 2 read_field config.LogLevel. apply env_rule_merged.
    + do 2 read_field config.EnableHTTP. apply env_rule_merged.
    + do 2 read_field config.EnableTCP. apply env_rule_merged.
  - unfold config.MergeConfigs. by rewrite Hload.
Qed.

End configuration.
